(** * mhcnames.helpers: string normalisation, expansion and the normalizing dictionary

    A shallow embedding of [mhcnames/helpers.py].

    Modelling conventions.
    - A Python [str] is a Rocq [string]; the embedding covers the code points
      below 128.  The remaining 8-bit characters of [ascii] are carried along
      as caseless, non-whitespace characters.
    - A Python [set] of strings is a [gset string]; a [dict] is an
      association list in insertion order (module [Dict]), which is the
      iteration order of a Python dict.
    - Exceptions are values of [exn]; a call that can raise returns a
      [result], and methods that mutate [self] return the new [self] next to
      the outcome, also when they raise. *)

From Stdlib Require Import Ascii String List Bool Arith Lia.
From stdpp Require Import base decidable option list strings gmap.
Import ListNotations.

Local Open Scope string_scope.

(** ** Python strings *)

Module Str.

Definition code (c : ascii) : nat := nat_of_ascii c.

Definition is_lower (c : ascii) : bool :=
  ((97 <=? code c) && (code c <=? 122))%nat.

Definition is_upper (c : ascii) : bool :=
  ((65 <=? code c) && (code c <=? 90))%nat.

(** [str.isspace] on the code points below 128: tab, line feed, vertical
    tab, form feed, carriage return, the four separators 28..31 and the
    space. *)
Definition is_space (c : ascii) : bool :=
  (((9 <=? code c) && (code c <=? 13)) || ((28 <=? code c) && (code c <=? 32)))%nat.

Definition upper_char (c : ascii) : ascii :=
  if is_lower c then ascii_of_nat (code c - 32) else c.

Definition lower_char (c : ascii) : ascii :=
  if is_upper c then ascii_of_nat (code c + 32) else c.

(** [name.upper()] *)
Fixpoint upper (s : string) : string :=
  match s with
  | EmptyString => EmptyString
  | String c r => String (upper_char c) (upper r)
  end.

(** [name.lower()] *)
Fixpoint lower (s : string) : string :=
  match s with
  | EmptyString => EmptyString
  | String c r => String (lower_char c) (lower r)
  end.

(** [char in name], for a one-character [char] *)
Fixpoint contains (char : ascii) (name : string) : bool :=
  match name with
  | EmptyString => false
  | String c r => Ascii.eqb c char || contains char r
  end.

(** [name.replace(char, '')], for a one-character [char] *)
Fixpoint replace (char : ascii) (name : string) : string :=
  match name with
  | EmptyString => EmptyString
  | String c r =>
      if Ascii.eqb c char then replace char r else String c (replace char r)
  end.

Fixpoint lstrip (s : string) : string :=
  match s with
  | EmptyString => EmptyString
  | String c r => if is_space c then lstrip r else s
  end.

Fixpoint rstrip (s : string) : string :=
  match s with
  | EmptyString => EmptyString
  | String c r =>
      match rstrip r with
      | EmptyString => if is_space c then EmptyString else String c EmptyString
      | r' => String c r'
      end
  end.

(** [name.strip()] *)
Definition strip (s : string) : string := rstrip (lstrip s).

(** Some whitespace character occurs in [s]. *)
Fixpoint has_whitespace (s : string) : bool :=
  match s with
  | EmptyString => false
  | String c r => is_space c || has_whitespace r
  end.

(** [s] with every character satisfying [p] dropped. *)
Fixpoint drop_chars (p : ascii -> bool) (s : string) : string :=
  match s with
  | EmptyString => EmptyString
  | String c r => if p c then drop_chars p r else String c (drop_chars p r)
  end.

End Str.

(** ** [normalize_string] *)

(** The default value of [chars_to_remove]. *)
Definition default_chars_to_remove : string := "-_'".

(** [for char in chars_to_remove: if char in name: name = name.replace(char, '')] *)
Definition remove_step (name : string) (char : ascii) : string :=
  if Str.contains char name then Str.replace char name else name.

Definition normalize_string (name : string) (chars_to_remove : string) : string :=
  let name := if Str.contains " " name then Str.strip name else name in
  let name := Str.upper name in
  fold_left remove_step (list_ascii_of_string chars_to_remove) name.

(** [normalize_string(name)], the call with the default [chars_to_remove];
    it is also the default [normalize_fn] of the container. *)
Definition normalize_string_default (name : string) : string :=
  normalize_string name default_chars_to_remove.

(** ** [expand_strings] *)

(** [for name in list(result_set): result_set.add(f(name))]: the loop runs
    over a snapshot of the set and adds to the set itself. *)
Definition add_each (f : string -> string) (result_set : gset string) : gset string :=
  fold_left (fun acc name => {[ f name ]} ∪ acc) (elements result_set) result_set.

(** [expand_strings] takes its [names] as a variable argument list. *)
Definition expand_strings (names : list string) (chars_to_remove : string) : gset string :=
  let result_set : gset string := list_to_set names in
  let result_set :=
    fold_left (fun acc char => add_each (Str.replace char) acc)
              (list_ascii_of_string chars_to_remove) result_set in
  let result_set := add_each Str.upper result_set in
  let result_set := add_each Str.lower result_set in
  result_set.

Definition expand_strings_default (names : list string) : gset string :=
  expand_strings names default_chars_to_remove.

(** ** Python dictionaries, in insertion order *)

Module Dict.

Definition t (V : Type) : Type := list (string * V).

(** [d.get(k)] *)
Fixpoint get {V} (d : t V) (k : string) : option V :=
  match d with
  | [] => None
  | (k', v') :: r => if decide (k' = k) then Some v' else get r k
  end.

(** [d[k] = v]: an existing key keeps its position, a new one goes last. *)
Fixpoint set {V} (d : t V) (k : string) (v : V) : t V :=
  match d with
  | [] => [(k, v)]
  | (k', v') :: r =>
      if decide (k' = k) then (k', v) :: r else (k', v') :: set r k v
  end.

Definition keys {V} (d : t V) : list string := map fst d.
Definition values {V} (d : t V) : list V := map snd d.

(** The keys of a dict are pairwise distinct. *)
Definition wf {V} (d : t V) : Prop := NoDup (keys d).

End Dict.

(** ** Python values and exceptions *)

(** The values a mapping holds: a scalar (a string) or a list, tuple or set
    of scalars. *)
Inductive pyval : Type :=
  | VStr (s : string)
  | VList (xs : list string)
  | VTuple (xs : list string)
  | VSet (xs : gset string).

(** [isinstance(v, (list, tuple, set))] *)
Definition is_collection (v : pyval) : bool :=
  match v with
  | VStr _ => false
  | VList _ | VTuple _ | VSet _ => true
  end.

(** The elements [for vi in values] runs over, where [values] is [v] itself
    when it is a list, tuple or set, and [[v]] otherwise. *)
Definition values_of (v : pyval) : list string :=
  match v with
  | VStr s => [s]
  | VList xs | VTuple xs => xs
  | VSet xs => elements xs
  end.

Inductive exn : Type :=
  | KeyError (k : string)
  | TypeError (msg : string)
  | AttributeError (msg : string).

Inductive result (A : Type) : Type :=
  | Ret (a : A)
  | Raise (e : exn).
Arguments Ret {A} a.
Arguments Raise {A} e.

(** Hashable values, the members of a set: strings and tuples of strings. *)
Inductive hval : Type :=
  | HStr (s : string)
  | HTuple (xs : list string).

#[global] Instance hval_eq_dec : EqDecision hval.
Proof. solve_decision. Defined.

#[global] Instance hval_countable : Countable hval.
Proof.
  refine (inj_countable'
            (fun h => match h with HStr s => inl s | HTuple xs => inr xs end)
            (fun x => match x with inl s => HStr s | inr xs => HTuple xs end) _).
  intros []; reflexivity.
Defined.

(** [hash(x)]: lists and sets are unhashable. *)
Definition py_hash (x : pyval) : result hval :=
  match x with
  | VStr s => Ret (HStr s)
  | VTuple xs => Ret (HTuple xs)
  | VList _ => Raise (TypeError "unhashable type: 'list'")
  | VSet _ => Raise (TypeError "unhashable type: 'set'")
  end.

(** A [for] loop whose body may raise: the loop stops at the first
    exception and keeps the state reached. *)
Fixpoint for_each {S A : Type} (body : S -> A -> result unit * S)
    (xs : list A) (s : S) : result unit * S :=
  match xs with
  | [] => (Ret tt, s)
  | x :: r =>
      match body s x with
      | (Ret _, s') => for_each body r s'
      | (Raise e, s') => (Raise e, s')
      end
  end.

(** ** [invert_dictionary] *)

(** [result[vi].add(k)] on a [defaultdict(set)]: a missing entry is created
    empty first. *)
Definition defaultdict_add (result : Dict.t (gset string)) (vi k : string)
    : Dict.t (gset string) :=
  match Dict.get result vi with
  | Some s => Dict.set result vi ({[ k ]} ∪ s)
  | None => Dict.set result vi ({[ k ]} ∪ ∅)
  end.

(** The body of [for k, v in d.items()]. *)
Definition invert_entry (result : Dict.t (gset string)) (kv : string * pyval)
    : Dict.t (gset string) :=
  let '(k, v) := kv in
  if is_collection v
  then fold_left (fun result vi => defaultdict_add result vi k) (values_of v) result
  else match v with
       | VStr s => defaultdict_add result s k
       | _ => result
       end.

Definition invert_dictionary (d : Dict.t pyval) : Dict.t (gset string) :=
  fold_left invert_entry d [].

(** ** The other dictionary transformers *)

(** [apply_string_expansion_to_set_members(set_of_strings)] *)
Definition apply_string_expansion_to_set_members (set_of_strings : gset string)
    : gset string :=
  fold_left
    (fun result x =>
       fold_left (fun result y => {[ y ]} ∪ result)
                 (elements (expand_strings_default [x])) result)
    (elements set_of_strings) ∅.

(** The body of [for key, value in d.items()] in
    [apply_string_expansion_to_dict_keys]. *)
Definition expand_entry {V : Type} (result : Dict.t V) (kv : string * V)
    : Dict.t V :=
  let '(key, value) := kv in
  fold_left (fun result expanded_key => Dict.set result expanded_key value)
            (elements (expand_strings_default [key])) result.

(** [apply_string_expansion_to_dict_keys(d)] *)
Definition apply_string_expansion_to_dict_keys {V : Type} (d : Dict.t V)
    : Dict.t V :=
  fold_left expand_entry d [].

(** [invert_and_expand_dictionary(d)] *)
Definition invert_and_expand_dictionary (d : Dict.t pyval) : Dict.t (gset string) :=
  apply_string_expansion_to_dict_keys (invert_dictionary d).

(** ** Set objects on the heap

    [set()] allocates a new object; a reference to it is its index in the
    heap, so two references denote the same instance when they are equal. *)

Definition loc : Type := nat.
Definition heap : Type := list (gset hval).

(** [set()] *)
Definition set_new (hp : heap) : loc * heap := (length hp, (hp ++ [∅])%list).

(** [s.add(x)] for the set object at [l]: [x] is hashed first. *)
Definition set_add (l : loc) (x : pyval) (hp : heap) : result unit * heap :=
  match py_hash x with
  | Raise e => (Raise e, hp)
  | Ret h => (Ret tt, alter (fun s => {[ h ]} ∪ s) l hp)
  end.

(** ** [NormalizingDictionary]

    [V] is the type of the stored values and [H] the state a default-value
    factory acts on (the heap, for [set]). *)

Section NormalizingDictionary.
Context {V H : Type}.

Record NormalizingDictionary : Type := mkND {
  store : Dict.t V;
  original_to_normalized_key_dict : Dict.t string;
  normalized_to_original_keys_dict : Dict.t (gset string);
  normalize_fn : string -> string;
  default_value_fn : option (H -> V * H);
}.

(** [self[k] = v] *)
Definition setitem (self : NormalizingDictionary) (k : string) (v : V)
    : NormalizingDictionary :=
  let k_normalized := normalize_fn self k in
  {| store := Dict.set (store self) k_normalized v;
     original_to_normalized_key_dict :=
       Dict.set (original_to_normalized_key_dict self) k k_normalized;
     normalized_to_original_keys_dict :=
       defaultdict_add (normalized_to_original_keys_dict self) k_normalized k;
     normalize_fn := normalize_fn self;
     default_value_fn := default_value_fn self |}.

(** [__init__( *pairs, normalize_fn, default_value_fn)] *)
Definition init (pairs : list (string * V)) (normalize_fn : string -> string)
    (default_value_fn : option (H -> V * H)) : NormalizingDictionary :=
  fold_left (fun self '(k, v) => setitem self k v) pairs
    {| store := [];
       original_to_normalized_key_dict := [];
       normalized_to_original_keys_dict := [];
       normalize_fn := normalize_fn;
       default_value_fn := default_value_fn |}.

Definition with_store (self : NormalizingDictionary) (st : Dict.t V)
    : NormalizingDictionary :=
  {| store := st;
     original_to_normalized_key_dict := original_to_normalized_key_dict self;
     normalized_to_original_keys_dict := normalized_to_original_keys_dict self;
     normalize_fn := normalize_fn self;
     default_value_fn := default_value_fn self |}.

(** [self.store[k_normalized]] *)
Definition store_getitem (self : NormalizingDictionary) (k_normalized : string)
    : result V :=
  match Dict.get (store self) k_normalized with
  | Some v => Ret v
  | None => Raise (KeyError k_normalized)
  end.

(** [self[k]] *)
Definition getitem (self : NormalizingDictionary) (k : string) (h : H)
    : result V * NormalizingDictionary * H :=
  let k_normalized := normalize_fn self k in
  match Dict.get (store self) k_normalized with
  | None =>
      match default_value_fn self with
      | Some f =>
          let '(v, h) := f h in
          let self := with_store self (Dict.set (store self) k_normalized v) in
          (store_getitem self k_normalized, self, h)
      | None => (Raise (KeyError k), self, h)
      end
  | Some _ => (store_getitem self k_normalized, self, h)
  end.

(** [self.get(k, v)] *)
Definition get (self : NormalizingDictionary) (k : string) (v : V) : V :=
  match Dict.get (store self) (normalize_fn self k) with
  | Some x => x
  | None => v
  end.

(** The attributes of an instance are those [__init__] assigns. *)
Inductive attribute : Type :=
  | AStore (d : Dict.t V)
  | AOriginalToNormalized (d : Dict.t string)
  | ANormalizedToOriginals (d : Dict.t (gset string))
  | ANormalizeFn (f : string -> string)
  | ADefaultValueFn (f : option (H -> V * H)).

(** [self.<name>] *)
Definition getattr (self : NormalizingDictionary) (name : string)
    : result attribute :=
  if decide (name = "store") then Ret (AStore (store self))
  else if decide (name = "original_to_normalized_key_dict")
  then Ret (AOriginalToNormalized (original_to_normalized_key_dict self))
  else if decide (name = "normalized_to_original_keys_dict")
  then Ret (ANormalizedToOriginals (normalized_to_original_keys_dict self))
  else if decide (name = "normalize_fn") then Ret (ANormalizeFn (normalize_fn self))
  else if decide (name = "default_value_fn")
  then Ret (ADefaultValueFn (default_value_fn self))
  else Raise (AttributeError name).

(** [a.keys()] *)
Definition attribute_keys (a : attribute) : result (list string) :=
  match a with
  | AStore d => Ret (Dict.keys d)
  | AOriginalToNormalized d => Ret (Dict.keys d)
  | ANormalizedToOriginals d => Ret (Dict.keys d)
  | ANormalizeFn _ | ADefaultValueFn _ => Raise (AttributeError "keys")
  end.

(** [self.keys()] reads [self.original_to_normalized_keys_dict]. *)
Definition keys (self : NormalizingDictionary) : result (list string) :=
  match getattr self "original_to_normalized_keys_dict" with
  | Ret a => attribute_keys a
  | Raise e => Raise e
  end.

(** [self.normalized_keys()] *)
Definition normalized_keys (self : NormalizingDictionary) : list string :=
  Dict.keys (store self).

(** [d[k]] on a [defaultdict(set)]: a missing key is inserted with an
    empty set. *)
Definition defaultdict_getitem (d : Dict.t (gset string)) (k : string)
    : gset string * Dict.t (gset string) :=
  match Dict.get d k with
  | Some s => (s, d)
  | None => (∅, Dict.set d k ∅)
  end.

(** [self.keys_aligned_with_values()] *)
Definition keys_aligned_with_values (self : NormalizingDictionary)
    : list (gset string) * NormalizingDictionary :=
  let '(aligned, n2o) :=
    fold_left
      (fun '(aligned, n2o) k =>
         let '(s, n2o) := defaultdict_getitem n2o k in ((aligned ++ [s])%list, n2o))
      (normalized_keys self)
      ([], normalized_to_original_keys_dict self) in
  (aligned,
   {| store := store self;
      original_to_normalized_key_dict := original_to_normalized_key_dict self;
      normalized_to_original_keys_dict := n2o;
      normalize_fn := normalize_fn self;
      default_value_fn := default_value_fn self |}).

(** [self.values()] *)
Definition values (self : NormalizingDictionary) : list V :=
  Dict.values (store self).

(** [self.items()] *)
Definition items (self : NormalizingDictionary)
    : list (gset string * V) * NormalizingDictionary :=
  let '(aligned, self) := keys_aligned_with_values self in
  (combine aligned (values self), self).

End NormalizingDictionary.

Arguments NormalizingDictionary : clear implicits.
Arguments attribute : clear implicits.

(** [result[vi].add(k)] in [invert]: [k] is the set of original keys that
    [items] paired with the value. *)
Definition invert_add (k : gset string)
    (st : NormalizingDictionary loc heap * heap) (vi : string)
    : result unit * (NormalizingDictionary loc heap * heap) :=
  let '(result, hp) := st in
  let '(r, result, hp) := getitem result vi hp in
  match r with
  | Raise e => (Raise e, (result, hp))
  | Ret l => let '(r, hp) := set_add l (VSet k) hp in (r, (result, hp))
  end.

(** The body of [for (k, v) in self.items()] in [invert]. *)
Definition invert_item (st : NormalizingDictionary loc heap * heap)
    (kv : gset string * pyval)
    : result unit * (NormalizingDictionary loc heap * heap) :=
  let '(k, v) := kv in for_each (invert_add k) (values_of v) st.

(** [self.invert()] *)
Definition invert {H : Type} (self : NormalizingDictionary pyval H) (hp : heap)
    : result (NormalizingDictionary loc heap) * NormalizingDictionary pyval H * heap :=
  let result : NormalizingDictionary loc heap :=
    init [] (normalize_fn self) (Some set_new) in
  let '(its, self) := items self in
  let '(r, (result, hp)) := for_each invert_item its (result, hp) in
  match r with
  | Ret _ => (Ret result, self, hp)
  | Raise e => (Raise e, self, hp)
  end.

(** ** Specification-side definitions *)

(** The canonical string of the specification: [s] in upper case, with every
    occurrence of a character of [chars] removed. *)
Definition canonical (chars : string) (s : string) : string :=
  Str.drop_chars (fun c => Str.contains c chars) (Str.upper s).

(** [s] with every occurrence of a character of [S] removed. *)
Definition without (S : list ascii) (s : string) : string :=
  Str.drop_chars (fun c => bool_decide (c ∈ S)) s.

(** The set a set-valued dict holds under [v], empty when [v] is no key. *)
Definition entry (result : Dict.t (gset string)) (v : string) : gset string :=
  default ∅ (Dict.get result v).

(** The character is a code point below 128. *)
Definition below_128 (c : ascii) : bool := (Str.code c <? 128)%nat.

(** The string made of a tab followed by [a]. *)
Definition tab_a : string := String "009" "a".

(** A value of the mapping yields the element [v]: it is the scalar [v], or
    a collection with member [v]. *)
Definition yields (val : pyval) (v : string) : Prop :=
  match val with
  | VStr s => s = v
  | VList xs | VTuple xs => v ∈ xs
  | VSet xs => v ∈ xs
  end.

#[global] Instance yields_dec (val : pyval) (v : string) : Decision (yields val v).
Proof. destruct val; simpl; apply _. Defined.

(** The auxiliary mappings of a container agree with each other and with
    the store: every recorded original key is mapped to its normalized form,
    the key sets are the inverse image of that mapping, the key sets are kept
    under the keys of the store, in the same order, and those keys are
    distinct. *)
Definition consistent {V H : Type} (self : NormalizingDictionary V H) : Prop :=
  (forall k n, Dict.get (original_to_normalized_key_dict self) k = Some n ->
               n = normalize_fn self k)
  /\ (forall k n, k ∈ entry (normalized_to_original_keys_dict self) n
                  <-> Dict.get (original_to_normalized_key_dict self) k = Some n)
  /\ Dict.keys (normalized_to_original_keys_dict self) = Dict.keys (store self)
  /\ Dict.wf (store self).

(** The loop of [keys_aligned_with_values]. *)
Definition aligned_loop (ks : list string)
    (st : list (gset string) * Dict.t (gset string))
    : list (gset string) * Dict.t (gset string) :=
  fold_left
    (fun '(aligned, n2o) k =>
       let '(s, n2o) := defaultdict_getitem n2o k in
       ((aligned ++ [s])%list, n2o))
    ks st.

(** ** Strings: lemmas *)

Section StringLemmas.

Lemma drop_chars_ext (p q : ascii -> bool) (s : string) :
  (forall c, p c = q c) -> Str.drop_chars p s = Str.drop_chars q s.
Proof.
  intros Hpq. induction s as [|c r IH]; simpl; [reflexivity|].
  rewrite Hpq, IH. reflexivity.
Qed.

Lemma drop_chars_none (p : ascii -> bool) (s : string) :
  (forall c, p c = false) -> Str.drop_chars p s = s.
Proof.
  intros Hp. induction s as [|c r IH]; simpl; [reflexivity|].
  rewrite Hp, IH. reflexivity.
Qed.

Lemma drop_chars_twice (p q : ascii -> bool) (s : string) :
  Str.drop_chars p (Str.drop_chars q s)
  = Str.drop_chars (fun c => q c || p c) s.
Proof.
  induction s as [|c r IH]; simpl; [reflexivity|].
  destruct (q c); simpl; [exact IH|].
  destruct (p c); simpl; rewrite IH; reflexivity.
Qed.

Lemma replace_drop_chars (char : ascii) (s : string) :
  Str.replace char s = Str.drop_chars (fun c => Ascii.eqb c char) s.
Proof.
  induction s as [|c r IH]; simpl; [reflexivity|].
  rewrite IH. reflexivity.
Qed.

Lemma replace_absent (char : ascii) (s : string) :
  Str.contains char s = false -> Str.replace char s = s.
Proof.
  induction s as [|c r IH]; simpl; [reflexivity|].
  intros Hc. apply orb_false_iff in Hc as [Hc Hr].
  rewrite Hc, (IH Hr). reflexivity.
Qed.

(** The test [if char in name] does not change what the loop computes. *)
Lemma remove_step_replace (name : string) (char : ascii) :
  remove_step name char = Str.replace char name.
Proof.
  unfold remove_step. destruct (Str.contains char name) eqn:Hc.
  - reflexivity.
  - symmetry. apply replace_absent, Hc.
Qed.

Lemma fold_remove_step (chars name : string) :
  fold_left remove_step (list_ascii_of_string chars) name
  = Str.drop_chars (fun c => Str.contains c chars) name.
Proof.
  revert name. induction chars as [|char r IH]; intros name; simpl.
  - symmetry. apply drop_chars_none. reflexivity.
  - rewrite IH, remove_step_replace, replace_drop_chars, drop_chars_twice.
    apply drop_chars_ext. intros c. rewrite (Ascii.eqb_sym char c). reflexivity.
Qed.

Lemma whitespace_free_no_space (s : string) :
  Str.has_whitespace s = false -> Str.contains " " s = false.
Proof.
  induction s as [|c r IH]; simpl; [reflexivity|].
  intros Hw. apply orb_false_iff in Hw as [Hc Hr].
  rewrite (IH Hr), orb_false_r.
  destruct (Ascii.eqb c " ") eqn:E; [|reflexivity].
  apply Ascii.eqb_eq in E. subst c. discriminate Hc.
Qed.

(** What [normalize_string] computes, for every input. *)
Lemma normalize_string_unfold (name chars : string) :
  normalize_string name chars
  = canonical chars (if Str.contains " " name then Str.strip name else name).
Proof. unfold normalize_string, canonical. apply fold_remove_step. Qed.

Lemma upper_char_idempotent (c : ascii) :
  Str.upper_char (Str.upper_char c) = Str.upper_char c.
Proof. destruct c as [[] [] [] [] [] [] [] []]; reflexivity. Qed.

Lemma upper_char_space (c : ascii) :
  Ascii.eqb (Str.upper_char c) " " = Ascii.eqb c " ".
Proof. destruct c as [[] [] [] [] [] [] [] []]; reflexivity. Qed.

Lemma upper_drop_upper (p : ascii -> bool) (s : string) :
  Str.upper (Str.drop_chars p (Str.upper s)) = Str.drop_chars p (Str.upper s).
Proof.
  induction s as [|c r IH]; simpl; [reflexivity|].
  destruct (p (Str.upper_char c)); simpl; [exact IH|].
  rewrite upper_char_idempotent, IH. reflexivity.
Qed.

Lemma canonical_no_space (chars s : string) :
  Str.contains " " s = false -> Str.contains " " (canonical chars s) = false.
Proof.
  unfold canonical. induction s as [|c r IH]; simpl; [reflexivity|].
  intros Hc. apply orb_false_iff in Hc as [Hc Hr].
  destruct (Str.contains (Str.upper_char c) chars); simpl; [exact (IH Hr)|].
  rewrite upper_char_space, Hc, (IH Hr). reflexivity.
Qed.

(** Away from the space character normalization is idempotent. *)
Lemma normalize_string_idempotent_without_space (s chars : string) :
  Str.contains " " s = false ->
  normalize_string (normalize_string s chars) chars = normalize_string s chars.
Proof.
  intros Hsp.
  rewrite (normalize_string_unfold s), Hsp, normalize_string_unfold.
  rewrite (canonical_no_space chars s Hsp).
  unfold canonical. rewrite upper_drop_upper, drop_chars_twice.
  apply drop_chars_ext. intros c. apply orb_diag.
Qed.

End StringLemmas.

(** ** [normalize_string]: theorems *)

(** C5. On a string without whitespace [normalize_string] returns the string
    in upper case with every occurrence of each character of
    [chars_to_remove] removed, for every string and every choice of the
    characters; with the default characters, ["el-ElvoY's"] becomes
    ["ELELVOYS"] and the empty string stays empty. *)
Theorem normalize_string_whitespace_free (s chars : string)
    (Hws : Str.has_whitespace s = false) :
  normalize_string s chars = canonical chars s
  /\ normalize_string_default "el-ElvoY's" = "ELELVOYS"
  /\ normalize_string_default EmptyString = EmptyString.
Proof.
  split; [|split; reflexivity].
  rewrite normalize_string_unfold, (whitespace_free_no_space s Hws).
  reflexivity.
Qed.

Lemma normalize_string_whitespace_free_witness :
  Str.has_whitespace "HLA-a_02'01" = false
  /\ normalize_string "HLA-a_02'01" default_chars_to_remove = "HLAA0201".
Proof.
  split; [reflexivity|].
  exact (proj1 (normalize_string_whitespace_free
                  "HLA-a_02'01" default_chars_to_remove eq_refl)).
Defined.

(** C6. The strip is missed on a string whose whitespace is not a space:
    the tab followed by [a] contains whitespace, yet the test
    [" " in name] fails on it, so it is returned with its leading tab,
    where stripping before the uppercasing gives ["A"].  The result has
    surrounding whitespace. *)
Theorem normalize_string_tab_not_stripped :
  Str.has_whitespace tab_a = true
  /\ Str.contains " " tab_a = false
  /\ normalize_string_default tab_a = String "009" "A"
  /\ canonical default_chars_to_remove (Str.strip tab_a) = "A"
  /\ Str.strip (normalize_string_default tab_a) <> normalize_string_default tab_a.
Proof.
  repeat (split; [reflexivity|]). vm_compute. discriminate.
Qed.

(** C7. Normalization is not idempotent: the strip runs before the
    characters are removed, so removing the hyphen of ["- a"] uncovers a
    leading space, which a second normalization strips. *)
Theorem normalize_string_not_idempotent :
  normalize_string_default "- a" = " A"
  /\ normalize_string_default (normalize_string_default "- a") = "A"
  /\ normalize_string_default (normalize_string_default "- a")
     <> normalize_string_default "- a".
Proof. split; [reflexivity|]. split; [reflexivity|]. vm_compute. discriminate. Qed.

(** ** [expand_strings]: theorems *)

Section ExpandLemmas.

Lemma elem_of_fold_add (f : string -> string) (l : list string)
    (X : gset string) (x : string) :
  x ∈ fold_left (fun acc name => {[ f name ]} ∪ acc) l X
  <-> x ∈ X \/ exists y, y ∈ l /\ x = f y.
Proof.
  revert X. induction l as [|a l IH]; intros X; simpl.
  - split; [auto|]. intros [Hx|(y & Hy & _)]; [exact Hx|]. inversion Hy.
  - rewrite IH, elem_of_union, elem_of_singleton. split.
    + intros [[Hx|Hx]|(y & Hy & Hxy)].
      * right. exists a. split; [left|exact Hx].
      * left. exact Hx.
      * right. exists y. split; [right; exact Hy|exact Hxy].
    + intros [Hx|(y & Hy & Hxy)].
      * left. right. exact Hx.
      * apply elem_of_cons in Hy as [->|Hy].
        -- left. left. exact Hxy.
        -- right. exists y. auto.
Qed.

Lemma elem_of_add_each (f : string -> string) (X : gset string) (x : string) :
  x ∈ add_each f X <-> x ∈ X \/ exists y, y ∈ X /\ x = f y.
Proof.
  unfold add_each. rewrite elem_of_fold_add.
  split; (intros [Hx|(y & Hy & Hxy)]; [left; exact Hx|right; exists y]);
    (split; [|exact Hxy]); apply elem_of_elements; exact Hy.
Qed.

Lemma add_each_keeps (f : string -> string) (X : gset string) (x : string) :
  x ∈ X -> x ∈ add_each f X.
Proof. intros Hx. apply elem_of_add_each. left. exact Hx. Qed.

Lemma add_each_image (f : string -> string) (X : gset string) (x : string) :
  x ∈ X -> f x ∈ add_each f X.
Proof. intros Hx. apply elem_of_add_each. right. exists x. auto. Qed.

(** One pass of the removal loop offers both choices: keep or remove. *)
Lemma add_each_choice (b : bool) (f : string -> string) (X : gset string)
    (x : string) :
  x ∈ X -> (if b then f else id) x ∈ add_each f X.
Proof. destruct b; [apply add_each_image|apply add_each_keeps]. Qed.

(** Removing the characters of a subset of the default set is removing
    the hyphen, the underscore and the apostrophe, each one or not. *)
Lemma without_default_subset (S : list ascii) (s : string) :
  S ⊆ list_ascii_of_string default_chars_to_remove ->
  without S s
  = (if bool_decide ("'"%char ∈ S) then Str.replace "'" else id)
      ((if bool_decide ("_"%char ∈ S) then Str.replace "_" else id)
         ((if bool_decide ("-"%char ∈ S) then Str.replace "-" else id) s)).
Proof.
  intros HS. unfold without.
  assert (Hin : forall c, bool_decide (c ∈ S)
            = (bool_decide ("-"%char ∈ S) && Ascii.eqb c "-")
              || (bool_decide ("_"%char ∈ S) && Ascii.eqb c "_")
              || (bool_decide ("'"%char ∈ S) && Ascii.eqb c "'")).
  { intros c. destruct (bool_decide_reflect (c ∈ S)) as [Hc|Hc].
    - pose proof (HS c Hc) as Hd. simpl in Hd.
      repeat (apply elem_of_cons in Hd as [->|Hd]);
        [..|inversion Hd];
        rewrite (bool_decide_eq_true_2 _ Hc); simpl;
        rewrite ?orb_true_r; reflexivity.
    - symmetry. repeat (apply orb_false_iff; split);
        apply andb_false_iff;
        match goal with
        | |- _ \/ Ascii.eqb c ?d = false =>
            destruct (Ascii.eqb c d) eqn:E; [left|right; reflexivity];
            apply Ascii.eqb_eq in E; subst c;
            apply bool_decide_eq_false_2; exact Hc
        end. }
  rewrite (drop_chars_ext _ _ s Hin).
  destruct (bool_decide ("-"%char ∈ S)), (bool_decide ("_"%char ∈ S)),
    (bool_decide ("'"%char ∈ S)); simpl; unfold id;
    rewrite ?replace_drop_chars, ?drop_chars_twice;
    first [ apply drop_chars_none; reflexivity
          | apply drop_chars_ext; intros c; simpl;
            destruct (Ascii.eqb c "-"), (Ascii.eqb c "_"), (Ascii.eqb c "'");
            reflexivity ].
Qed.

End ExpandLemmas.

(** C8. For every string [s] and every subset [S] of the default removal
    characters, [expand_strings(s)] contains [s] with the characters of [S]
    removed, and the upper-case and lower-case forms of that variant; [s]
    itself is a member; and [expand_strings("AB-cd")] contains ["AB-cd"],
    ["ABcd"], ["ABCD"], ["abcd"], ["AB-CD"] and ["ab-cd"]. *)
Theorem expand_strings_contains_variants (s : string) (S : list ascii)
    (HS : S ⊆ list_ascii_of_string default_chars_to_remove) :
  (without S s ∈ expand_strings_default [s]
   /\ Str.upper (without S s) ∈ expand_strings_default [s]
   /\ Str.lower (without S s) ∈ expand_strings_default [s])
  /\ s ∈ expand_strings_default [s]
  /\ (forall x, x ∈ ["AB-cd"; "ABcd"; "ABCD"; "abcd"; "AB-CD"; "ab-cd"] ->
                x ∈ expand_strings_default ["AB-cd"]).
Proof.
  assert (Hvar : forall S', S' ⊆ list_ascii_of_string default_chars_to_remove ->
            without S' s
            ∈ add_each (Str.replace "'")
                (add_each (Str.replace "_")
                   (add_each (Str.replace "-") (list_to_set [s])))).
  { intros S' HS'. rewrite (without_default_subset S' s HS').
    do 3 apply add_each_choice. set_solver. }
  unfold expand_strings_default, expand_strings. simpl fold_left.
  split; [|split].
  - pose proof (Hvar S HS) as Hv. split; [|split].
    + do 2 apply add_each_keeps. exact Hv.
    + apply add_each_keeps, add_each_image. exact Hv.
    + apply add_each_image, add_each_keeps. exact Hv.
  - do 5 apply add_each_keeps. set_solver.
  - intros x Hx.
    repeat (apply elem_of_cons in Hx as [->|Hx]); [..|inversion Hx];
      apply (bool_decide_unpack _); vm_compute; exact I.
Qed.

Lemma expand_strings_contains_variants_witness :
  ["-"%char; "'"%char] ⊆ list_ascii_of_string default_chars_to_remove
  /\ "AB_cd" ∈ expand_strings_default ["A-B_c'd"]
  /\ "ab_cd" ∈ expand_strings_default ["A-B_c'd"].
Proof.
  assert (HS : ["-"%char; "'"%char] ⊆ list_ascii_of_string default_chars_to_remove).
  { intros c Hc. simpl.
    repeat (apply elem_of_cons in Hc as [->|Hc]); [..|inversion Hc];
      repeat constructor. }
  split; [exact HS|].
  pose proof (expand_strings_contains_variants "A-B_c'd" ["-"%char; "'"%char] HS)
    as [[Hv [_ Hl]] _].
  split; [exact Hv|exact Hl].
Defined.

(** ** Dictionaries: lemmas *)

Section DictLemmas.
Context {V : Type}.
Implicit Types (d : Dict.t V) (k : string) (v : V).

Lemma get_set_eq d k v : Dict.get (Dict.set d k v) k = Some v.
Proof.
  induction d as [|[k' v'] r IH]; simpl.
  - rewrite decide_True; reflexivity.
  - destruct (decide (k' = k)) as [->|Hne]; simpl.
    + rewrite decide_True; reflexivity.
    + rewrite decide_False; [exact IH|exact Hne].
Qed.

Lemma get_set_ne d k k' v : k <> k' -> Dict.get (Dict.set d k v) k' = Dict.get d k'.
Proof.
  intros Hk. induction d as [|[k0 v0] r IH]; simpl.
  - rewrite decide_False; [reflexivity|exact Hk].
  - destruct (decide (k0 = k)) as [->|Hne]; simpl.
    + rewrite !decide_False; [reflexivity|exact Hk|exact Hk].
    + rewrite IH. reflexivity.
Qed.

Lemma get_set d k k' v :
  Dict.get (Dict.set d k v) k' = if decide (k = k') then Some v else Dict.get d k'.
Proof.
  destruct (decide (k = k')) as [->|Hne];
    [apply get_set_eq|apply get_set_ne, Hne].
Qed.

Lemma get_None_keys d k : Dict.get d k = None <-> k ∉ Dict.keys d.
Proof.
  induction d as [|[k' v'] r IH]; simpl.
  - split; [intros _ Hin; inversion Hin|reflexivity].
  - rewrite not_elem_of_cons. destruct (decide (k' = k)) as [->|Hne].
    + split; [discriminate|]. intros [Hk _]. contradiction.
    + rewrite IH. split; [intros Hr; split; [congruence|exact Hr]|tauto].
Qed.

Lemma keys_set d k v :
  Dict.keys (Dict.set d k v)
  = if decide (k ∈ Dict.keys d) then Dict.keys d else (Dict.keys d ++ [k])%list.
Proof.
  induction d as [|[k' v'] r IH]; cbn [Dict.set].
  - rewrite decide_False; [reflexivity|]. intros Hin. inversion Hin.
  - destruct (decide (k' = k)) as [->|Hne].
    + rewrite decide_True; [reflexivity|]. left.
    + change (Dict.keys ((k', v') :: ?x)) with (k' :: Dict.keys x).
      rewrite IH.
      destruct (decide (k ∈ Dict.keys r)) as [Hin|Hin].
      * rewrite decide_True; [reflexivity|]. right. exact Hin.
      * rewrite decide_False; [reflexivity|].
        rewrite not_elem_of_cons. split; [congruence|exact Hin].
Qed.

Lemma wf_set d k v : Dict.wf d -> Dict.wf (Dict.set d k v).
Proof.
  unfold Dict.wf. intros Hwf. rewrite keys_set.
  destruct (decide (k ∈ Dict.keys d)) as [Hin|Hin]; [exact Hwf|].
  apply NoDup_app. split; [exact Hwf|]. split.
  - intros x Hx Hx'. apply list_elem_of_singleton in Hx'. subst x. contradiction.
  - apply NoDup_singleton.
Qed.

(** In a well-formed dict the entries are what [get] returns. *)
Lemma wf_get_elem_of d k v : Dict.wf d -> (k, v) ∈ d <-> Dict.get d k = Some v.
Proof.
  unfold Dict.wf. induction d as [|[k' v'] r IH]; simpl; intros Hwf.
  - split; [intros Hin; inversion Hin|discriminate].
  - apply NoDup_cons in Hwf as [Hk' Hwf]. rewrite elem_of_cons.
    destruct (decide (k' = k)) as [->|Hne].
    + split.
      * intros [Heq|Hin]; [congruence|]. exfalso. apply Hk'.
        apply list_elem_of_fmap. exists (k, v). auto.
      * intros [= ->]. left. reflexivity.
    + rewrite <- (IH Hwf). split; [|auto].
      intros [[= -> ->]|Hin]; [contradiction|exact Hin].
Qed.

End DictLemmas.

(** ** [invert_dictionary]: theorems *)

Section InvertDictionary.
Implicit Types (result : Dict.t (gset string)) (d : Dict.t pyval).

Lemma defaultdict_add_get result vi k v :
  Dict.get (defaultdict_add result vi k) v
  = if decide (vi = v) then Some ({[ k ]} ∪ entry result vi) else Dict.get result v.
Proof.
  unfold defaultdict_add, entry.
  destruct (Dict.get result vi) as [s|]; rewrite get_set; reflexivity.
Qed.

Lemma defaultdict_add_wf result vi k :
  Dict.wf result -> Dict.wf (defaultdict_add result vi k).
Proof.
  unfold defaultdict_add. destruct (Dict.get result vi); apply wf_set.
Qed.

Lemma defaultdict_add_entry result vi k v :
  entry (defaultdict_add result vi k) v
  = if decide (vi = v) then {[ k ]} ∪ entry result v else entry result v.
Proof.
  unfold entry at 1. rewrite defaultdict_add_get.
  destruct (decide (vi = v)) as [->|]; reflexivity.
Qed.

(** The inner loop [for vi in v: result[vi].add(k)]. *)
Lemma add_all_get (xs : list string) result k v :
  Dict.get (fold_left (fun result vi => defaultdict_add result vi k) xs result) v
  = if decide (v ∈ xs) then Some ({[ k ]} ∪ entry result v) else Dict.get result v.
Proof.
  revert result. induction xs as [|a xs IH]; intros result; cbn [fold_left].
  - rewrite decide_False; [reflexivity|]. intros Hin. inversion Hin.
  - rewrite IH, defaultdict_add_entry, defaultdict_add_get.
    destruct (decide (v ∈ xs)) as [Hin|Hin].
    + rewrite (decide_True (P := v ∈ a :: xs))
        by (apply elem_of_cons; right; exact Hin).
      destruct (decide (a = v)); [|reflexivity].
      f_equal. rewrite (assoc_L (∪)), (idemp_L (∪) {[ k ]}). reflexivity.
    + destruct (decide (a = v)) as [->|Hne].
      * rewrite (decide_True (P := v ∈ v :: xs))
          by (apply elem_of_cons; left; reflexivity).
        reflexivity.
      * rewrite decide_False; [reflexivity|].
        rewrite not_elem_of_cons. split; [congruence|exact Hin].
Qed.

Lemma add_all_wf (xs : list string) result k :
  Dict.wf result ->
  Dict.wf (fold_left (fun result vi => defaultdict_add result vi k) xs result).
Proof.
  revert result. induction xs as [|a xs IH]; intros result Hwf; cbn [fold_left];
    [exact Hwf|]. apply IH, defaultdict_add_wf, Hwf.
Qed.

Lemma yields_values_of (val : pyval) (v : string) :
  yields val v <-> v ∈ values_of val.
Proof.
  destruct val; simpl; try reflexivity.
  - rewrite list_elem_of_singleton. split; congruence.
  - symmetry. apply elem_of_elements.
Qed.

(** One entry [(k, val)] of the mapping adds [k] under every element that
    [val] yields, and touches no other entry of the result. *)
Lemma invert_entry_get result k (val : pyval) v :
  Dict.get (invert_entry result (k, val)) v
  = if decide (yields val v) then Some ({[ k ]} ∪ entry result v)
    else Dict.get result v.
Proof.
  assert (Hfold :
    Dict.get (fold_left (fun result vi => defaultdict_add result vi k)
                        (values_of val) result) v
    = if decide (yields val v) then Some ({[ k ]} ∪ entry result v)
      else Dict.get result v).
  { rewrite add_all_get.
    destruct (decide (v ∈ values_of val)) as [Hin|Hin].
    - rewrite decide_True; [reflexivity|]. apply yields_values_of, Hin.
    - rewrite decide_False; [reflexivity|]. rewrite yields_values_of. exact Hin. }
  destruct val; exact Hfold.
Qed.

Lemma invert_entry_wf result (kv : string * pyval) :
  Dict.wf result -> Dict.wf (invert_entry result kv).
Proof.
  destruct kv as [k val]. intros Hwf.
  destruct val; simpl;
    [apply defaultdict_add_wf|apply add_all_wf..]; exact Hwf.
Qed.

Lemma invert_entry_entry result k (val : pyval) v :
  entry (invert_entry result (k, val)) v
  = if decide (yields val v) then {[ k ]} ∪ entry result v else entry result v.
Proof.
  unfold entry at 1. rewrite invert_entry_get.
  destruct (decide (yields val v)); reflexivity.
Qed.

(** The loop over the items, from any intermediate [result]. *)
Lemma invert_loop_entry d result v k :
  k ∈ entry (fold_left invert_entry d result) v
  <-> k ∈ entry result v \/ exists val, (k, val) ∈ d /\ yields val v.
Proof.
  revert result. induction d as [|[k0 val0] d IH]; intros result; cbn [fold_left].
  - split; [auto|]. intros [Hk|(val & Hin & _)]; [exact Hk|inversion Hin].
  - rewrite IH, invert_entry_entry. split.
    + intros [Hk|(val & Hin & Hy)].
      * destruct (decide (yields val0 v)) as [Hy|Hy].
        -- apply elem_of_union in Hk as [Hk|Hk]; [|left; exact Hk].
           apply elem_of_singleton in Hk. subst k0.
           right. exists val0. split; [left|exact Hy].
        -- left. exact Hk.
      * right. exists val. split; [right; exact Hin|exact Hy].
    + intros [Hk|(val & Hin & Hy)].
      * left. destruct (decide (yields val0 v)); [|exact Hk].
        apply elem_of_union. right. exact Hk.
      * apply elem_of_cons in Hin as [[= -> ->]|Hin].
        -- left. rewrite decide_True by exact Hy.
           apply elem_of_union. left. apply elem_of_singleton. reflexivity.
        -- right. exists val. auto.
Qed.

Lemma invert_loop_is_Some d result v :
  is_Some (Dict.get (fold_left invert_entry d result) v)
  <-> is_Some (Dict.get result v) \/ exists k val, (k, val) ∈ d /\ yields val v.
Proof.
  revert result. induction d as [|[k0 val0] d IH]; intros result; cbn [fold_left].
  - split; [auto|]. intros [Hs|(k & val & Hin & _)]; [exact Hs|inversion Hin].
  - rewrite IH, invert_entry_get. split.
    + intros [Hs|(k & val & Hin & Hy)].
      * destruct (decide (yields val0 v)) as [Hy|Hy].
        -- right. exists k0, val0. split; [left|exact Hy].
        -- left. exact Hs.
      * right. exists k, val. split; [right; exact Hin|exact Hy].
    + intros [Hs|(k & val & Hin & Hy)].
      * left. destruct (decide (yields val0 v)); [eexists; reflexivity|exact Hs].
      * apply elem_of_cons in Hin as [[= -> ->]|Hin].
        -- left. rewrite decide_True by exact Hy. eexists; reflexivity.
        -- right. exists k, val. auto.
Qed.

Lemma invert_loop_wf d result :
  Dict.wf result -> Dict.wf (fold_left invert_entry d result).
Proof.
  revert result. induction d as [|kv d IH]; intros result Hwf; cbn [fold_left];
    [exact Hwf|]. apply IH, invert_entry_wf, Hwf.
Qed.

End InvertDictionary.

(** C9. For a mapping [d] whose values are scalars or lists, tuples or sets,
    the keys of [invert_dictionary(d)] are exactly the value elements of
    [d], each mapped to exactly the set of keys [k] such that [d[k]] is that
    element or a collection with that element as a member; the result is a
    dict (its keys are distinct); and inverting
    [{"x": ["a","b"], "y": "a"}] gives [{"a": {"x","y"}, "b": {"x"}}]. *)
Theorem invert_dictionary_spec (d : Dict.t pyval) (Hwf : Dict.wf d) :
  (forall v, is_Some (Dict.get (invert_dictionary d) v)
             <-> exists k val, Dict.get d k = Some val /\ yields val v)
  /\ (forall v ks, Dict.get (invert_dictionary d) v = Some ks ->
        forall k, k ∈ ks <-> exists val, Dict.get d k = Some val /\ yields val v)
  /\ Dict.wf (invert_dictionary d)
  /\ invert_dictionary [("x", VList ["a"; "b"]); ("y", VStr "a")]
     = [("a", {[ "x"; "y" ]}); ("b", {[ "x" ]})].
Proof.
  unfold invert_dictionary. split; [|split; [|split]].
  - intros v. rewrite invert_loop_is_Some. split.
    + intros [[x Hx]|(k & val & Hin & Hy)]; [discriminate Hx|].
      exists k, val. split; [apply wf_get_elem_of; assumption|exact Hy].
    + intros (k & val & Hget & Hy). right. exists k, val.
      split; [apply wf_get_elem_of; assumption|exact Hy].
  - intros v ks Hks k.
    pose proof (invert_loop_entry d [] v k) as Hiff.
    unfold entry at 1 in Hiff. rewrite Hks in Hiff. simpl in Hiff.
    rewrite Hiff. split.
    + intros [Hk|(val & Hin & Hy)]; [set_solver|].
      exists val. split; [apply wf_get_elem_of; assumption|exact Hy].
    + intros (val & Hget & Hy). right. exists val.
      split; [apply wf_get_elem_of; assumption|exact Hy].
  - apply invert_loop_wf. apply NoDup_nil_2.
  - vm_compute. reflexivity.
Qed.

Lemma invert_dictionary_spec_witness :
  Dict.wf [("x", VList ["a"; "b"]); ("y", VStr "a")]
  /\ (forall ks,
        Dict.get (invert_dictionary [("x", VList ["a"; "b"]); ("y", VStr "a")]) "a"
        = Some ks ->
        forall k, k ∈ ks <->
          exists val, Dict.get [("x", VList ["a"; "b"]); ("y", VStr "a")] k = Some val
                      /\ yields val "a").
Proof.
  assert (Hwf : Dict.wf [("x", VList ["a"; "b"]); ("y", VStr "a")]).
  { unfold Dict.wf. apply (bool_decide_unpack _). vm_compute. exact I. }
  split; [exact Hwf|].
  exact (proj1 (proj2 (invert_dictionary_spec _ Hwf)) "a").
Defined.

(** ** [NormalizingDictionary]: assignment and lookup *)

Section ContainerLemmas.
Context {V H : Type}.
Implicit Types (self : NormalizingDictionary V H) (k : string) (v : V) (h : H).

Lemma getitem_present self k v h :
  Dict.get (store self) (normalize_fn self k) = Some v ->
  getitem self k h = (Ret v, self, h).
Proof.
  intros Hget. unfold getitem, store_getitem. rewrite Hget. reflexivity.
Qed.

Lemma getitem_absent_no_factory self k h :
  Dict.get (store self) (normalize_fn self k) = None ->
  default_value_fn self = None ->
  getitem self k h = (Raise (KeyError k), self, h).
Proof.
  intros Hget Hf. unfold getitem. rewrite Hget, Hf. reflexivity.
Qed.

Lemma getitem_absent_factory self k h (f : H -> V * H) :
  Dict.get (store self) (normalize_fn self k) = None ->
  default_value_fn self = Some f ->
  getitem self k h
  = (Ret (f h).1,
     with_store self (Dict.set (store self) (normalize_fn self k) (f h).1),
     (f h).2).
Proof.
  intros Hget Hf. unfold getitem. rewrite Hget, Hf.
  destruct (f h) as [v h']. unfold store_getitem. simpl.
  rewrite get_set_eq. reflexivity.
Qed.

Lemma store_setitem self k v :
  store (setitem self k v) = Dict.set (store self) (normalize_fn self k) v.
Proof. reflexivity. Qed.

Lemma setitem_getitem self k k' v h :
  normalize_fn self k = normalize_fn self k' ->
  getitem (setitem self k v) k' h = (Ret v, setitem self k v, h).
Proof.
  intros Hn. apply getitem_present. simpl. rewrite Hn. apply get_set_eq.
Qed.

End ContainerLemmas.

(** C1. Last write wins: when [k1] and [k2] have the same normalized form,
    after [self[k1] = v1] and then [self[k2] = v2] the lookups of [k1] and
    of [k2] both return [v2] and leave the container as it is; the store
    holds [v2] under the common normalized key and its keys stay pairwise
    distinct.  With the default normalization, after assigning ["foobar"]
    and then ["Foo-Bar"], looking up ["foobar"] returns the value assigned
    to ["Foo-Bar"]. *)
Theorem last_write_wins {V H : Type} (self : NormalizingDictionary V H)
    (k1 k2 : string) (v1 v2 : V) (h : H)
    (Hn : normalize_fn self k1 = normalize_fn self k2) :
  let self2 := setitem (setitem self k1 v1) k2 v2 in
  getitem self2 k1 h = (Ret v2, self2, h)
  /\ getitem self2 k2 h = (Ret v2, self2, h)
  /\ Dict.get (store self2) (normalize_fn self k1) = Some v2
  /\ (Dict.wf (store self) -> Dict.wf (store self2))
  /\ (let nd : NormalizingDictionary V H :=
        init [("foobar", v1); ("Foo-Bar", v2)] normalize_string_default None in
      getitem nd "foobar" h = (Ret v2, nd, h)).
Proof.
  intros self2. split; [|split; [|split; [|split]]].
  - apply (setitem_getitem (setitem self k1 v1) k2 k1 v2 h). simpl. congruence.
  - apply (setitem_getitem (setitem self k1 v1) k2 k2 v2 h). reflexivity.
  - unfold self2. rewrite !store_setitem. simpl. rewrite Hn. apply get_set_eq.
  - intros Hwf. unfold self2. rewrite !store_setitem. do 2 apply wf_set. exact Hwf.
  - reflexivity.
Qed.

Lemma last_write_wins_witness :
  let self : NormalizingDictionary nat unit :=
    init [] normalize_string_default None in
  normalize_fn self "Foo-Bar" = normalize_fn self "foobar"
  /\ (getitem (setitem (setitem self "Foo-Bar" 1) "foobar" 2) "Foo-Bar" tt).1.1
     = Ret 2.
Proof.
  intros self. split; [reflexivity|].
  pose proof (last_write_wins self "Foo-Bar" "foobar" 1 2 tt eq_refl) as [Hg _].
  rewrite Hg. reflexivity.
Defined.

(** C2. Lookup of a key whose normalized form is not in the store: without
    a default-value factory the lookup raises [KeyError]; with a factory
    [f] the lookup applies [f] once, stores the created value under the
    normalized key and returns it, and every later lookup of the key
    returns that stored value and leaves the container and the factory's
    state as they are.  With [set] as the factory the created value is a
    new set object that is empty, and later lookups return the same
    object. *)
Theorem getitem_absent_key {V H : Type} (self : NormalizingDictionary V H)
    (k : string) (h : H)
    (Habs : Dict.get (store self) (normalize_fn self k) = None) :
  (default_value_fn self = None -> (getitem self k h).1.1 = Raise (KeyError k))
  /\ (forall f, default_value_fn self = Some f ->
        let v := (f h).1 in
        let self' :=
          with_store self (Dict.set (store self) (normalize_fn self k) v) in
        getitem self k h = (Ret v, self', (f h).2)
        /\ Dict.get (store self') (normalize_fn self k) = Some v
        /\ forall h', getitem self' k h' = (Ret v, self', h'))
  /\ (forall (sd : NormalizingDictionary loc heap) (ks : string) (hp : heap),
        Dict.get (store sd) (normalize_fn sd ks) = None ->
        default_value_fn sd = Some set_new ->
        exists (l : loc) (sd' : NormalizingDictionary loc heap),
          getitem sd ks hp = (Ret l, sd', (hp ++ [∅])%list)
          /\ (hp ++ [∅])%list !! l = Some ∅
          /\ length (hp ++ [∅])%list = S (length hp)
          /\ forall hp', getitem sd' ks hp' = (Ret l, sd', hp')).
Proof.
  split; [|split].
  - intros Hf. rewrite (getitem_absent_no_factory self k h Habs Hf). reflexivity.
  - intros f Hf v self'. split; [|split].
    + apply getitem_absent_factory; assumption.
    + simpl. apply get_set_eq.
    + intros h'. apply getitem_present. simpl. apply get_set_eq.
  - intros sd ks hp Hsd Hf.
    exists (length hp),
      (with_store sd (Dict.set (store sd) (normalize_fn sd ks) (length hp))).
    split; [|split; [|split]].
    + rewrite (getitem_absent_factory sd ks hp set_new Hsd Hf). reflexivity.
    + rewrite lookup_app_r by reflexivity.
      rewrite Nat.sub_diag. reflexivity.
    + rewrite length_app. simpl. lia.
    + intros hp'. apply getitem_present. simpl. apply get_set_eq.
Qed.

Lemma getitem_absent_key_witness :
  let nd : NormalizingDictionary loc heap :=
    init [] normalize_string_default (Some set_new) in
  Dict.get (store nd) (normalize_fn nd "Foo-Bar") = None
  /\ getitem nd "Foo-Bar" [] = (Ret 0, with_store nd [("FOOBAR", 0)], [∅]).
Proof.
  intros nd. split; [reflexivity|].
  exact (proj1 (proj1 (proj2 (getitem_absent_key nd "Foo-Bar" [] eq_refl))
                      set_new eq_refl)).
Defined.

(** C10. A failed lookup is atomic and reports the key it was given: with
    no default-value factory, the lookup of a key whose normalized form is
    absent raises [KeyError] carrying the original key, not its normalized
    form, and the store, both auxiliary mappings and the rest of the
    container are unchanged. *)
Theorem getitem_keyerror_atomic {V H : Type} (self : NormalizingDictionary V H)
    (k : string) (h : H)
    (Hf : default_value_fn self = None)
    (Habs : Dict.get (store self) (normalize_fn self k) = None) :
  (getitem self k h).1.1 = Raise (KeyError k)
  /\ (normalize_fn self k <> k ->
      (getitem self k h).1.1 <> Raise (KeyError (normalize_fn self k)))
  /\ store (getitem self k h).1.2 = store self
  /\ original_to_normalized_key_dict (getitem self k h).1.2
     = original_to_normalized_key_dict self
  /\ normalized_to_original_keys_dict (getitem self k h).1.2
     = normalized_to_original_keys_dict self
  /\ (getitem self k h).1.2 = self
  /\ (getitem self k h).2 = h.
Proof.
  rewrite (getitem_absent_no_factory self k h Habs Hf). simpl.
  repeat split; try reflexivity.
  intros Hne [= Heq]. apply Hne. symmetry. exact Heq.
Qed.

Lemma getitem_keyerror_atomic_witness :
  let nd : NormalizingDictionary nat unit :=
    init [("a", 1)] normalize_string_default None in
  normalize_fn nd "Foo-Bar" = "FOOBAR"
  /\ (getitem nd "Foo-Bar" tt).1.1 = Raise (KeyError "Foo-Bar")
  /\ store (getitem nd "Foo-Bar" tt).1.2 = [("A", 1)].
Proof.
  intros nd.
  pose proof (getitem_keyerror_atomic nd "Foo-Bar" tt eq_refl eq_refl)
    as (Hr & _ & Hs & _).
  split; [reflexivity|]. split; [exact Hr|]. rewrite Hs. reflexivity.
Defined.

(** ** [NormalizingDictionary]: [keys] and [invert] *)

Lemma getattr_original_to_normalized_key_dict {V H : Type}
    (self : NormalizingDictionary V H) :
  getattr self "original_to_normalized_key_dict"
  = Ret (AOriginalToNormalized (original_to_normalized_key_dict self)).
Proof. reflexivity. Qed.

(** C4. [keys] never returns: it reads the attribute
    [original_to_normalized_keys_dict], which no instance has ([__init__]
    assigns [original_to_normalized_key_dict]), so every call raises
    [AttributeError], whatever was assigned to the container. *)
Theorem keys_raises_attribute_error {V H : Type}
    (self : NormalizingDictionary V H) :
  keys self = Raise (AttributeError "original_to_normalized_keys_dict").
Proof. reflexivity. Qed.

Section InvertLemmas.
Implicit Types (result : NormalizingDictionary loc heap) (hp : heap).

(** With [set] as the factory [result[vi]] always returns a set object,
    and adding the key set [k] to it fails: a set is not hashable. *)
Lemma invert_add_raises (k : gset string) result hp (vi : string) :
  default_value_fn result = Some set_new ->
  (invert_add k (result, hp) vi).1 = Raise (TypeError "unhashable type: 'set'").
Proof.
  intros Hf. unfold invert_add.
  destruct (Dict.get (store result) (normalize_fn result vi)) as [l|] eqn:Hget.
  - rewrite (getitem_present result vi l hp Hget). reflexivity.
  - rewrite (getitem_absent_factory result vi hp set_new Hget Hf). reflexivity.
Qed.

Lemma invert_item_empty (st : NormalizingDictionary loc heap * heap)
    (k : gset string) (v : pyval) :
  values_of v = [] -> invert_item st (k, v) = (Ret tt, st).
Proof. intros Hv. unfold invert_item. rewrite Hv. reflexivity. Qed.

Lemma invert_item_raises (k : gset string) (v : pyval) result hp :
  default_value_fn result = Some set_new ->
  values_of v <> [] ->
  (invert_item (result, hp) (k, v)).1
  = Raise (TypeError "unhashable type: 'set'").
Proof.
  intros Hf Hv. unfold invert_item.
  destruct (values_of v) as [|vi r]; [contradiction|]. cbn [for_each].
  pose proof (invert_add_raises k result hp vi Hf) as Hr.
  destruct (invert_add k (result, hp) vi) as [[u|e] st']; simpl in Hr;
    [discriminate Hr|]. simpl. exact Hr.
Qed.


Lemma invert_loop_raises (its : list (gset string * pyval)) result hp :
  default_value_fn result = Some set_new ->
  Exists (fun kv => values_of kv.2 <> []) its ->
  (for_each invert_item its (result, hp)).1
  = Raise (TypeError "unhashable type: 'set'").
Proof.
  intros Hf. induction its as [|[k v] its IH]; intros Hex;
    [inversion Hex|]. cbn [for_each].
  destruct (decide (values_of v = [])) as [Hv|Hv].
  - rewrite (invert_item_empty (result, hp) k v Hv). apply IH.
    apply Exists_cons in Hex as [Hex|Hex]; [contradiction|exact Hex].
  - pose proof (invert_item_raises k v result hp Hf Hv) as Hr.
    destruct (invert_item (result, hp) (k, v)) as [[u|e] st']; simpl in Hr;
      [discriminate Hr|]. simpl. exact Hr.
Qed.

End InvertLemmas.

Section ItemsLemmas.
Context {V H : Type}.
Implicit Types (self : NormalizingDictionary V H).

Lemma aligned_length (ks : list string) (acc : list (gset string))
    (d : Dict.t (gset string)) :
  length
    (fold_left
       (fun '(aligned, n2o) k =>
          let '(s, n2o) := defaultdict_getitem n2o k in
          ((aligned ++ [s])%list, n2o))
       ks (acc, d)).1
  = length acc + length ks.
Proof.
  revert acc d. induction ks as [|k ks IH]; intros acc d; cbn [fold_left].
  - simpl. lia.
  - destruct (defaultdict_getitem d k) as [s d'].
    rewrite IH, length_app. simpl. lia.
Qed.

Lemma combine_snd {A B : Type} (l1 : list A) (l2 : list B) :
  length l1 = length l2 -> map snd (combine l1 l2) = l2.
Proof.
  revert l2. induction l1 as [|a l1 IH]; intros [|b l2] Hlen;
    simpl in *; try discriminate; [reflexivity|].
  rewrite IH; [reflexivity|]. lia.
Qed.

(** [items] pairs every stored value with a key set: the two lists it
    zips have the same length. *)
Lemma items_values self : map snd (items self).1 = values self.
Proof.
  unfold items, keys_aligned_with_values.
  pose proof (aligned_length (normalized_keys self) []
                (normalized_to_original_keys_dict self)) as Hlen.
  destruct (fold_left _ (normalized_keys self) _) as [aligned n2o].
  simpl in Hlen. simpl. apply combine_snd.
  rewrite Hlen. unfold normalized_keys, values, Dict.keys, Dict.values.
  rewrite !length_map. reflexivity.
Qed.

End ItemsLemmas.


(** As soon as one stored value is a scalar or a non-empty collection,
    [invert] raises [TypeError]. *)
Lemma invert_raises {H : Type} (self : NormalizingDictionary pyval H)
    (hp : heap) :
  Exists (fun v => values_of v <> []) (values self) ->
  (invert self hp).1.1 = Raise (TypeError "unhashable type: 'set'").
Proof.
  intros Hex. unfold invert.
  pose proof (items_values self) as Hv.
  destruct (items self) as [its self'].
  simpl in Hv. rewrite <- Hv in Hex.
  assert (Hex' : Exists (fun kv : gset string * pyval => values_of kv.2 <> []) its).
  { apply Exists_exists in Hex as (v & Hin & Hne).
    apply list_elem_of_fmap in Hin as ([k v'] & -> & Hin).
    apply Exists_exists. exists (k, v'). split; assumption. }
  clear Hex. rename Hex' into Hex.
  pose proof (invert_loop_raises its
                (init [] (normalize_fn self) (Some set_new)) hp eq_refl Hex) as Hr.
  destruct (for_each invert_item its _) as [[u|e] [result' hp']];
    simpl in Hr; [discriminate Hr|]. simpl. injection Hr as ->. reflexivity.
Qed.

(** C3. [invert] fails on the container built from the pair [("a", "b")]:
    [items] pairs the value ["b"] with the set [{"a"}] of original keys, and
    [result["b"].add({"a"})] raises [TypeError], since a set is not
    hashable.  No key is registered under any value. *)
Theorem invert_raises_type_error (hp : heap) :
  (invert (init (H := unit) [("a", VStr "b")] normalize_string_default None) hp).1.1
  = Raise (TypeError "unhashable type: 'set'")
  /\ (items (init (H := unit) [("a", VStr "b")] normalize_string_default None)).1
     = [({[ "a" ]}, VStr "b")].
Proof.
  split.
  - apply invert_raises. apply Exists_cons. left. discriminate.
  - vm_compute. reflexivity.
Qed.

(** ** Further properties of [normalize_string] *)

Section NormalizeProperties.

Lemma upper_char_lower_char (c : ascii) :
  Str.upper_char (Str.lower_char c) = Str.upper_char c.
Proof. destruct c as [[] [] [] [] [] [] [] []]; reflexivity. Qed.

Lemma lower_char_upper_char (c : ascii) :
  Str.lower_char (Str.upper_char c) = Str.lower_char c.
Proof. destruct c as [[] [] [] [] [] [] [] []]; reflexivity. Qed.

Lemma lower_char_idempotent (c : ascii) :
  Str.lower_char (Str.lower_char c) = Str.lower_char c.
Proof. destruct c as [[] [] [] [] [] [] [] []]; reflexivity. Qed.

Lemma is_space_upper_char (c : ascii) :
  Str.is_space (Str.upper_char c) = Str.is_space c.
Proof. destruct c as [[] [] [] [] [] [] [] []]; reflexivity. Qed.

Lemma is_space_lower_char (c : ascii) :
  Str.is_space (Str.lower_char c) = Str.is_space c.
Proof. destruct c as [[] [] [] [] [] [] [] []]; reflexivity. Qed.

Lemma lower_char_space (c : ascii) :
  Ascii.eqb (Str.lower_char c) " " = Ascii.eqb c " ".
Proof. destruct c as [[] [] [] [] [] [] [] []]; reflexivity. Qed.

Lemma upper_upper (s : string) : Str.upper (Str.upper s) = Str.upper s.
Proof.
  induction s as [|c r IH]; simpl; [reflexivity|].
  rewrite upper_char_idempotent, IH. reflexivity.
Qed.

Lemma upper_lower (s : string) : Str.upper (Str.lower s) = Str.upper s.
Proof.
  induction s as [|c r IH]; simpl; [reflexivity|].
  rewrite upper_char_lower_char, IH. reflexivity.
Qed.

Lemma lower_upper (s : string) : Str.lower (Str.upper s) = Str.lower s.
Proof.
  induction s as [|c r IH]; simpl; [reflexivity|].
  rewrite lower_char_upper_char, IH. reflexivity.
Qed.

Lemma lower_lower (s : string) : Str.lower (Str.lower s) = Str.lower s.
Proof.
  induction s as [|c r IH]; simpl; [reflexivity|].
  rewrite lower_char_idempotent, IH. reflexivity.
Qed.

Lemma contains_space_upper (s : string) :
  Str.contains " " (Str.upper s) = Str.contains " " s.
Proof.
  induction s as [|c r IH]; simpl; [reflexivity|].
  rewrite upper_char_space, IH. reflexivity.
Qed.

Lemma contains_space_lower (s : string) :
  Str.contains " " (Str.lower s) = Str.contains " " s.
Proof.
  induction s as [|c r IH]; simpl; [reflexivity|].
  rewrite lower_char_space, IH. reflexivity.
Qed.

Lemma lstrip_upper (s : string) : Str.lstrip (Str.upper s) = Str.upper (Str.lstrip s).
Proof.
  induction s as [|c r IH]; simpl; [reflexivity|].
  rewrite is_space_upper_char. destruct (Str.is_space c); [exact IH|reflexivity].
Qed.

Lemma lstrip_lower (s : string) : Str.lstrip (Str.lower s) = Str.lower (Str.lstrip s).
Proof.
  induction s as [|c r IH]; simpl; [reflexivity|].
  rewrite is_space_lower_char. destruct (Str.is_space c); [exact IH|reflexivity].
Qed.

Lemma rstrip_upper (s : string) : Str.rstrip (Str.upper s) = Str.upper (Str.rstrip s).
Proof.
  induction s as [|c r IH]; simpl; [reflexivity|].
  rewrite IH, is_space_upper_char.
  destruct (Str.rstrip r) as [|c' r']; simpl; [|reflexivity].
  destruct (Str.is_space c); reflexivity.
Qed.

Lemma rstrip_lower (s : string) : Str.rstrip (Str.lower s) = Str.lower (Str.rstrip s).
Proof.
  induction s as [|c r IH]; simpl; [reflexivity|].
  rewrite IH, is_space_lower_char.
  destruct (Str.rstrip r) as [|c' r']; simpl; [|reflexivity].
  destruct (Str.is_space c); reflexivity.
Qed.

Lemma strip_upper (s : string) : Str.strip (Str.upper s) = Str.upper (Str.strip s).
Proof. unfold Str.strip. rewrite lstrip_upper, rstrip_upper. reflexivity. Qed.

Lemma strip_lower (s : string) : Str.strip (Str.lower s) = Str.lower (Str.strip s).
Proof. unfold Str.strip. rewrite lstrip_lower, rstrip_lower. reflexivity. Qed.

Lemma canonical_upper (chars s : string) :
  canonical chars (Str.upper s) = canonical chars s.
Proof. unfold canonical. rewrite upper_upper. reflexivity. Qed.

Lemma canonical_lower (chars s : string) :
  canonical chars (Str.lower s) = canonical chars s.
Proof. unfold canonical. rewrite upper_lower. reflexivity. Qed.

Lemma contains_drop_chars (p : ascii -> bool) (c : ascii) (s : string) :
  p c = true -> Str.contains c (Str.drop_chars p s) = false.
Proof.
  intros Hp. induction s as [|c0 r IH]; simpl; [reflexivity|].
  destruct (p c0) eqn:Hc0; [exact IH|]. simpl. rewrite IH, orb_false_r.
  destruct (Ascii.eqb c0 c) eqn:E; [|reflexivity].
  apply Ascii.eqb_eq in E. congruence.
Qed.

Lemma normalize_string_case (name chars : string) :
  normalize_string (Str.upper name) chars = normalize_string name chars
  /\ normalize_string (Str.lower name) chars = normalize_string name chars.
Proof.
  rewrite !normalize_string_unfold, contains_space_upper, contains_space_lower.
  destruct (Str.contains " " name).
  - rewrite strip_upper, strip_lower, canonical_upper, canonical_lower. auto.
  - rewrite canonical_upper, canonical_lower. auto.
Qed.

End NormalizeProperties.

(** X1. The result of [normalize_string] holds none of the characters of
    [chars_to_remove], for every input and every choice of characters. *)
Theorem normalize_string_removes_chars (name chars : string) (c : ascii)
    (Hc : Str.contains c chars = true) :
  Str.contains c (normalize_string name chars) = false.
Proof.
  rewrite normalize_string_unfold. unfold canonical.
  apply contains_drop_chars. exact Hc.
Qed.

Lemma normalize_string_removes_chars_witness :
  Str.contains "_" default_chars_to_remove = true
  /\ Str.contains "_" (normalize_string " hla_a-02 " default_chars_to_remove) = false.
Proof.
  split; [reflexivity|].
  exact (normalize_string_removes_chars " hla_a-02 " default_chars_to_remove "_" eq_refl).
Defined.

(** X2. The result of [normalize_string] is in upper case: uppercasing it
    again changes nothing. *)
Theorem normalize_string_is_upper (name chars : string) :
  Str.upper (normalize_string name chars) = normalize_string name chars.
Proof.
  rewrite normalize_string_unfold. unfold canonical. apply upper_drop_upper.
Qed.

(** X3. Normalization does not depend on the case of its input: the
    upper-case and the lower-case form of a string normalize like the
    string itself. *)
Theorem normalize_string_case_insensitive (name chars : string) :
  normalize_string (Str.upper name) chars = normalize_string name chars
  /\ normalize_string (Str.lower name) chars = normalize_string name chars.
Proof. apply normalize_string_case. Qed.

(** X4. Normalizing twice gives the same as normalizing once whenever the
    input has no space character, and more generally whenever the first
    result has no leading or trailing whitespace left. *)
Theorem normalize_string_idempotent_when_stripped (name chars : string)
    (H : Str.contains " " name = false
         \/ Str.strip (normalize_string name chars) = normalize_string name chars) :
  normalize_string (normalize_string name chars) chars
  = normalize_string name chars.
Proof.
  destruct H as [Hsp|Hst].
  - apply normalize_string_idempotent_without_space, Hsp.
  - rewrite (normalize_string_unfold (normalize_string name chars)), Hst.
    rewrite Tauto.if_same.
    rewrite (normalize_string_unfold name). unfold canonical.
    rewrite upper_drop_upper, drop_chars_twice.
    apply drop_chars_ext. intros c. apply orb_diag.
Qed.

Lemma normalize_string_idempotent_when_stripped_witness :
  Str.contains " " "Foo-Bar" = false
  /\ Str.strip (normalize_string " a b " default_chars_to_remove)
     = normalize_string " a b " default_chars_to_remove
  /\ normalize_string (normalize_string "Foo-Bar" default_chars_to_remove)
       default_chars_to_remove = "FOOBAR"
  /\ normalize_string (normalize_string " a b " default_chars_to_remove)
       default_chars_to_remove = "A B".
Proof.
  split; [reflexivity|]. split; [reflexivity|]. split.
  - rewrite (normalize_string_idempotent_when_stripped
               "Foo-Bar" default_chars_to_remove (or_introl eq_refl)).
    reflexivity.
  - rewrite (normalize_string_idempotent_when_stripped
               " a b " default_chars_to_remove (or_intror eq_refl)).
    reflexivity.
Defined.

Section RemovalProperties.

Lemma contains_replace (c char : ascii) (s : string) :
  Str.contains c s = false -> Str.contains c (Str.replace char s) = false.
Proof.
  induction s as [|c0 r IH]; simpl; [reflexivity|].
  intros Hc. apply orb_false_iff in Hc as [Hc0 Hr].
  destruct (Ascii.eqb c0 char); simpl; [exact (IH Hr)|].
  rewrite Hc0, (IH Hr). reflexivity.
Qed.

(** Uppercasing leaves alone a code point below 128 that is not a
    lower-case letter. *)
Lemma upper_char_fixed (c : ascii) :
  below_128 c = true -> Str.is_lower c = false -> Str.upper_char c = c.
Proof.
  destruct c as [[] [] [] [] [] [] [] []]; intros Ha Hl;
    first [reflexivity | discriminate Ha | discriminate Hl].
Qed.

Lemma canonical_replace (chars : string) (c : ascii) (s : string) :
  Str.contains c chars = true -> Str.upper_char c = c ->
  canonical chars (Str.replace c s) = canonical chars s.
Proof.
  intros Hc Hfix. unfold canonical.
  induction s as [|c0 r IH]; simpl; [reflexivity|].
  destruct (Ascii.eqb c0 c) eqn:E.
  - apply Ascii.eqb_eq in E. subst c0.
    rewrite Hfix, Hc. exact IH.
  - simpl. rewrite IH. reflexivity.
Qed.

End RemovalProperties.

(** X5. On a string without a space, removing beforehand a character of
    [chars_to_remove] that is a code point below 128 and not a lower-case
    letter does not change the normalized form. *)
Theorem normalize_string_ignores_removed (name chars : string) (c : ascii)
    (Hc : Str.contains c chars = true)
    (Ha : below_128 c = true)
    (Hl : Str.is_lower c = false)
    (Hsp : Str.contains " " name = false) :
  normalize_string (Str.replace c name) chars = normalize_string name chars.
Proof.
  rewrite !normalize_string_unfold, Hsp, (contains_replace " " c name Hsp).
  apply canonical_replace; [exact Hc|apply upper_char_fixed; assumption].
Qed.

Lemma normalize_string_ignores_removed_witness :
  Str.contains "-" default_chars_to_remove = true
  /\ below_128 "-" = true
  /\ Str.is_lower "-" = false
  /\ Str.contains " " "HLA-A_02" = false
  /\ normalize_string "HLAA_02" default_chars_to_remove
     = normalize_string "HLA-A_02" default_chars_to_remove.
Proof.
  repeat (split; [reflexivity|]).
  exact (normalize_string_ignores_removed
           "HLA-A_02" default_chars_to_remove "-" eq_refl eq_refl eq_refl eq_refl).
Defined.

(** ** Further properties of [expand_strings] *)

Section ExpandProperties.
Implicit Types (X Y : gset string) (chars : list ascii) (names : list string).

Lemma removal_loop_keeps chars X (x : string) :
  x ∈ X ->
  x ∈ fold_left (fun acc char => add_each (Str.replace char) acc) chars X.
Proof.
  revert X. induction chars as [|c chars IH]; intros X Hx; cbn [fold_left];
    [exact Hx|]. apply IH, add_each_keeps, Hx.
Qed.

Lemma removal_loop_invariant (P : string -> Prop) chars X :
  (forall c x, c ∈ chars -> P x -> P (Str.replace c x)) ->
  (forall x, x ∈ X -> P x) ->
  forall x, x ∈ fold_left (fun acc char => add_each (Str.replace char) acc) chars X ->
            P x.
Proof.
  revert X. induction chars as [|c chars IH]; intros X Hstep HX; cbn [fold_left];
    [exact HX|].
  apply IH.
  - intros c' x Hc'. apply Hstep. apply elem_of_cons. right. exact Hc'.
  - intros x Hx. apply elem_of_add_each in Hx as [Hx|(y & Hy & ->)].
    + apply HX, Hx.
    + apply Hstep; [apply elem_of_cons; left; reflexivity|apply HX, Hy].
Qed.

Lemma add_each_invariant (P : string -> Prop) (f : string -> string) X :
  (forall x, P x -> P (f x)) ->
  (forall x, x ∈ X -> P x) -> forall x, x ∈ add_each f X -> P x.
Proof.
  intros Hf HX x Hx. apply elem_of_add_each in Hx as [Hx|(y & Hy & ->)];
    [apply HX, Hx|apply Hf, HX, Hy].
Qed.

Lemma add_each_union (f : string -> string) X Y :
  add_each f (X ∪ Y) = add_each f X ∪ add_each f Y.
Proof.
  apply set_eq. intros x.
  rewrite elem_of_union, !elem_of_add_each. split.
  - intros [Hx|(y & Hy & ->)].
    + apply elem_of_union in Hx as [Hx|Hx]; [left|right]; left; exact Hx.
    + apply elem_of_union in Hy as [Hy|Hy]; [left|right]; right; exists y; auto.
  - intros [[Hx|(y & Hy & ->)]|[Hx|(y & Hy & ->)]].
    + left. apply elem_of_union. left. exact Hx.
    + right. exists y. split; [apply elem_of_union; left; exact Hy|reflexivity].
    + left. apply elem_of_union. right. exact Hx.
    + right. exists y. split; [apply elem_of_union; right; exact Hy|reflexivity].
Qed.

Lemma add_each_empty (f : string -> string) : add_each f ∅ = ∅.
Proof.
  apply set_eq. intros x. rewrite elem_of_add_each. split.
  - intros [Hx|(y & Hy & _)]; [exact Hx|]. exfalso. exact (not_elem_of_empty y Hy).
  - intros Hx. left. exact Hx.
Qed.

Lemma removal_loop_union chars X Y :
  fold_left (fun acc char => add_each (Str.replace char) acc) chars (X ∪ Y)
  = fold_left (fun acc char => add_each (Str.replace char) acc) chars X
    ∪ fold_left (fun acc char => add_each (Str.replace char) acc) chars Y.
Proof.
  revert X Y. induction chars as [|c chars IH]; intros X Y; cbn [fold_left];
    [reflexivity|]. rewrite add_each_union. apply IH.
Qed.

Lemma removal_loop_empty chars :
  fold_left (fun acc char => add_each (Str.replace char) acc) chars ∅
  = (∅ : gset string).
Proof.
  induction chars as [|c chars IH]; cbn [fold_left]; [reflexivity|].
  rewrite add_each_empty. exact IH.
Qed.

Lemma expand_strings_nil (chars_to_remove : string) :
  expand_strings [] chars_to_remove = ∅.
Proof.
  unfold expand_strings. cbn [list_to_set foldr].
  rewrite removal_loop_empty, !add_each_empty. reflexivity.
Qed.

Lemma expand_strings_app names (names' : list string) (chars_to_remove : string) :
  expand_strings (names ++ names') chars_to_remove
  = expand_strings names chars_to_remove ∪ expand_strings names' chars_to_remove.
Proof.
  unfold expand_strings.
  rewrite list_to_set_app_L, removal_loop_union, !add_each_union. reflexivity.
Qed.

Lemma elem_of_expand_strings names (chars_to_remove : string) (x : string) :
  x ∈ expand_strings names chars_to_remove
  <-> exists s, s ∈ names /\ x ∈ expand_strings [s] chars_to_remove.
Proof.
  induction names as [|a names IH].
  - rewrite expand_strings_nil. split.
    + intros Hx. exfalso. exact (not_elem_of_empty x Hx).
    + intros (s & Hs & _). inversion Hs.
  - change (a :: names) with ([a] ++ names)%list.
    rewrite expand_strings_app, elem_of_union, IH. split.
    + intros [Hx|(s & Hs & Hx)].
      * exists a. split; [apply elem_of_cons; left; reflexivity|exact Hx].
      * exists s. split; [apply elem_of_cons; right; exact Hs|exact Hx].
    + intros (s & Hs & Hx). apply elem_of_cons in Hs as [->|Hs].
      * left. exact Hx.
      * right. exists s. auto.
Qed.

Lemma expand_strings_keeps names (chars_to_remove : string) (s : string) :
  s ∈ names -> s ∈ expand_strings names chars_to_remove.
Proof.
  intros Hs. unfold expand_strings.
  do 2 apply add_each_keeps. apply removal_loop_keeps.
  apply elem_of_list_to_set. exact Hs.
Qed.

End ExpandProperties.

(** X6. Every input name is a member of [expand_strings], whatever the
    names and the characters to remove. *)
Theorem expand_strings_superset (names : list string) (chars_to_remove : string)
    (s : string) (Hs : s ∈ names) :
  s ∈ expand_strings names chars_to_remove.
Proof. apply expand_strings_keeps, Hs. Qed.

Lemma expand_strings_superset_witness :
  "b_C" ∈ ["A-1"; "b_C"] /\ "b_C" ∈ expand_strings ["A-1"; "b_C"] "-".
Proof.
  assert (Hin : "b_C" ∈ ["A-1"; "b_C"]).
  { apply elem_of_cons. right. apply elem_of_cons. left. reflexivity. }
  split; [exact Hin|].
  exact (expand_strings_superset ["A-1"; "b_C"] "-" "b_C" Hin).
Defined.

(** X7. [expand_strings] works name by name: the expansion of several names
    is the union of the expansions of each name, and the expansion of no
    name is the empty set. *)
Theorem expand_strings_union (names names' : list string) (chars_to_remove : string) :
  expand_strings (names ++ names') chars_to_remove
  = expand_strings names chars_to_remove ∪ expand_strings names' chars_to_remove
  /\ expand_strings [] chars_to_remove = ∅
  /\ (expand_strings names chars_to_remove = ∅ <-> names = []).
Proof.
  split; [apply expand_strings_app|]. split; [apply expand_strings_nil|].
  split.
  - intros Hempty. destruct names as [|a names]; [reflexivity|]. exfalso.
    apply (not_elem_of_empty (C := gset string) a). rewrite <- Hempty.
    apply expand_strings_keeps. apply elem_of_cons. left. reflexivity.
  - intros ->. apply expand_strings_nil.
Qed.

(** X8. The result of [expand_strings] is closed under case folding: with
    every member it contains the member's upper-case and lower-case form. *)
Theorem expand_strings_case_closed (names : list string) (chars_to_remove : string)
    (x : string) (Hx : x ∈ expand_strings names chars_to_remove) :
  Str.upper x ∈ expand_strings names chars_to_remove
  /\ Str.lower x ∈ expand_strings names chars_to_remove.
Proof.
  unfold expand_strings in *.
  set (X := fold_left _ _ _) in *.
  apply elem_of_add_each in Hx as [Hx|(y & Hy & ->)].
  - split; [|apply add_each_image, Hx].
    apply add_each_keeps.
    apply elem_of_add_each in Hx as [Hx|(z & Hz & ->)].
    + apply add_each_image, Hx.
    + rewrite upper_upper. apply add_each_image, Hz.
  - rewrite upper_lower, lower_lower. split; [|apply add_each_image, Hy].
    apply add_each_keeps.
    apply elem_of_add_each in Hy as [Hy|(z & Hz & ->)].
    + apply add_each_image, Hy.
    + rewrite upper_upper. apply add_each_image, Hz.
Qed.

Lemma expand_strings_case_closed_witness :
  "ab-cd" ∈ expand_strings ["AB-cd"] "-"
  /\ "AB-CD" ∈ expand_strings ["AB-cd"] "-".
Proof.
  assert (Hx : "ab-cd" ∈ expand_strings ["AB-cd"] "-").
  { apply (bool_decide_unpack _). vm_compute. exact I. }
  split; [exact Hx|].
  exact (proj1 (expand_strings_case_closed ["AB-cd"] "-" "ab-cd" Hx)).
Defined.

(** X9. Expansion and normalization agree, on strings over the code points
    below 128: when the characters to remove are code points below 128 that
    are not lower-case letters and the names have no space, every member of
    [expand_strings(names)] has the normalized form of one of the names. *)
Theorem expand_strings_normalize (names : list string) (chars : string)
    (x : string)
    (Hchars : forall c, Str.contains c chars = true ->
                        below_128 c = true /\ Str.is_lower c = false)
    (Hsp : forall s, s ∈ names -> Str.contains " " s = false)
    (Hx : x ∈ expand_strings names chars) :
  exists s, s ∈ names /\ normalize_string x chars = normalize_string s chars.
Proof.
  set (P := fun x => Str.contains " " x = false
                     /\ exists s, s ∈ names
                          /\ normalize_string x chars = normalize_string s chars).
  enough (HP : P x) by exact (proj2 HP).
  revert x Hx. unfold expand_strings.
  apply add_each_invariant.
  { intros x [Hs (s & Hin & Hn)]. split.
    - rewrite contains_space_lower. exact Hs.
    - exists s. split; [exact Hin|].
      rewrite <- Hn. apply normalize_string_case. }
  apply add_each_invariant.
  { intros x [Hs (s & Hin & Hn)]. split.
    - rewrite contains_space_upper. exact Hs.
    - exists s. split; [exact Hin|].
      rewrite <- Hn. apply normalize_string_case. }
  apply removal_loop_invariant.
  - intros c x Hc [Hs (s & Hin & Hn)]. split.
    + apply contains_replace, Hs.
    + exists s. split; [exact Hin|]. rewrite <- Hn.
      assert (Hcc : Str.contains c chars = true).
      { clear -Hc. induction chars as [|c0 r IH]; simpl in *; [inversion Hc|].
        apply elem_of_cons in Hc as [->|Hc].
        - rewrite Ascii.eqb_refl. reflexivity.
        - rewrite (IH Hc). apply orb_true_r. }
      rewrite !normalize_string_unfold, Hs, (contains_replace " " c x Hs).
      apply canonical_replace; [exact Hcc|].
      apply upper_char_fixed; apply (Hchars c Hcc).
  - intros x Hx. apply elem_of_list_to_set in Hx. split; [apply Hsp, Hx|].
    exists x. split; [exact Hx|reflexivity].
Qed.

Lemma expand_strings_normalize_witness :
  "foobar" ∈ expand_strings ["Foo-Bar"] default_chars_to_remove
  /\ exists s, s ∈ ["Foo-Bar"]
       /\ normalize_string "foobar" default_chars_to_remove
          = normalize_string s default_chars_to_remove.
Proof.
  assert (Hx : "foobar" ∈ expand_strings ["Foo-Bar"] default_chars_to_remove).
  { apply (bool_decide_unpack _). vm_compute. exact I. }
  split; [exact Hx|].
  apply (expand_strings_normalize ["Foo-Bar"] default_chars_to_remove "foobar").
  - intros c. unfold default_chars_to_remove. cbn [Str.contains].
    destruct (Ascii.eqb_spec "-" c) as [<-|_]; [split; reflexivity|].
    destruct (Ascii.eqb_spec "_" c) as [<-|_]; [split; reflexivity|].
    destruct (Ascii.eqb_spec "'" c) as [<-|_]; [split; reflexivity|].
    cbn [orb]. intros Hc. discriminate Hc.
  - intros s Hs. apply list_elem_of_singleton in Hs. subst s. reflexivity.
  - exact Hx.
Defined.

(** ** The dictionary transformers built on [expand_strings] *)

Section SetMembers.

Lemma set_members_inner (l : list string) (R : gset string) (y : string) :
  y ∈ fold_left (fun result y => {[ y ]} ∪ result) l R <-> y ∈ R \/ y ∈ l.
Proof.
  revert R. induction l as [|a l IH]; intros R; cbn [fold_left].
  - split; [auto|]. intros [Hy|Hy]; [exact Hy|inversion Hy].
  - rewrite IH, elem_of_union, elem_of_singleton, elem_of_cons. tauto.
Qed.

Lemma set_members_outer (xs : list string) (R : gset string) (y : string) :
  y ∈ fold_left
        (fun result x =>
           fold_left (fun result y => {[ y ]} ∪ result)
                     (elements (expand_strings_default [x])) result)
        xs R
  <-> y ∈ R \/ exists x, x ∈ xs /\ y ∈ expand_strings_default [x].
Proof.
  revert R. induction xs as [|a xs IH]; intros R; cbn [fold_left].
  - split; [auto|]. intros [Hy|(x & Hx & _)]; [exact Hy|inversion Hx].
  - rewrite IH, set_members_inner, elem_of_elements. split.
    + intros [[Hy|Hy]|(x & Hx & Hy)].
      * left. exact Hy.
      * right. exists a. split; [apply elem_of_cons; left; reflexivity|exact Hy].
      * right. exists x. split; [apply elem_of_cons; right; exact Hx|exact Hy].
    + intros [Hy|(x & Hx & Hy)].
      * left. left. exact Hy.
      * apply elem_of_cons in Hx as [->|Hx].
        -- left. right. exact Hy.
        -- right. exists x. auto.
Qed.

End SetMembers.

(** X10. [apply_string_expansion_to_set_members] returns the union of the
    expansions of the members: it is [expand_strings] applied to all the
    members at once, and it contains the given set. *)
Theorem apply_string_expansion_to_set_members_spec (set_of_strings : gset string) :
  (forall y, y ∈ apply_string_expansion_to_set_members set_of_strings
             <-> exists x, x ∈ set_of_strings /\ y ∈ expand_strings_default [x])
  /\ apply_string_expansion_to_set_members set_of_strings
     = expand_strings_default (elements set_of_strings)
  /\ set_of_strings ⊆ apply_string_expansion_to_set_members set_of_strings.
Proof.
  assert (Hmem : forall y,
            y ∈ apply_string_expansion_to_set_members set_of_strings
            <-> exists x, x ∈ set_of_strings /\ y ∈ expand_strings_default [x]).
  { intros y. unfold apply_string_expansion_to_set_members.
    rewrite set_members_outer. split.
    - intros [Hy|(x & Hx & Hy)]; [exfalso; exact (not_elem_of_empty y Hy)|].
      exists x. split; [apply elem_of_elements, Hx|exact Hy].
    - intros (x & Hx & Hy). right. exists x.
      split; [apply elem_of_elements, Hx|exact Hy]. }
  split; [exact Hmem|]. split.
  - apply set_eq. intros y. rewrite Hmem.
    unfold expand_strings_default. rewrite elem_of_expand_strings.
    split; intros (x & Hx & Hy); exists x; (split; [|exact Hy]);
      apply elem_of_elements; exact Hx.
  - intros x Hx. apply Hmem. exists x. split; [exact Hx|].
    apply expand_strings_keeps. apply list_elem_of_singleton. reflexivity.
Qed.

Section ExpandDictKeys.
Context {V : Type}.
Implicit Types (d result : Dict.t V) (x k : string) (v : V).

Lemma set_all_get (xs : list string) result v x :
  Dict.get (fold_left (fun result key => Dict.set result key v) xs result) x
  = if decide (x ∈ xs) then Some v else Dict.get result x.
Proof.
  revert result. induction xs as [|a xs IH]; intros result; cbn [fold_left].
  - rewrite decide_False; [reflexivity|]. intros Hin. inversion Hin.
  - rewrite IH, get_set. destruct (decide (x ∈ xs)) as [Hin|Hin].
    + rewrite (decide_True (P := x ∈ a :: xs))
        by (apply elem_of_cons; right; exact Hin). reflexivity.
    + destruct (decide (a = x)) as [->|Hne].
      * rewrite (decide_True (P := x ∈ x :: xs))
          by (apply elem_of_cons; left; reflexivity). reflexivity.
      * rewrite decide_False; [reflexivity|].
        rewrite not_elem_of_cons. split; [congruence|exact Hin].
Qed.

Lemma set_all_wf (xs : list string) result v :
  Dict.wf result ->
  Dict.wf (fold_left (fun result key => Dict.set result key v) xs result).
Proof.
  revert result. induction xs as [|a xs IH]; intros result Hwf; cbn [fold_left];
    [exact Hwf|]. apply IH, wf_set, Hwf.
Qed.

Lemma expand_entry_get result k v x :
  Dict.get (expand_entry result (k, v)) x
  = if decide (x ∈ expand_strings_default [k]) then Some v else Dict.get result x.
Proof.
  unfold expand_entry. rewrite set_all_get.
  destruct (decide (x ∈ elements (expand_strings_default [k]))) as [Hin|Hin].
  - rewrite decide_True; [reflexivity|]. apply elem_of_elements, Hin.
  - rewrite decide_False; [reflexivity|]. rewrite <- elem_of_elements. exact Hin.
Qed.

Lemma expand_entry_wf result (kv : string * V) :
  Dict.wf result -> Dict.wf (expand_entry result kv).
Proof. destruct kv as [k v]. apply set_all_wf. Qed.

Lemma expand_loop_wf d result :
  Dict.wf result -> Dict.wf (fold_left expand_entry d result).
Proof.
  revert result. induction d as [|kv d IH]; intros result Hwf; cbn [fold_left];
    [exact Hwf|]. apply IH, expand_entry_wf, Hwf.
Qed.

(** Entries whose expansion misses [x] leave the lookup of [x] alone. *)
Lemma expand_loop_miss d result x :
  (forall k v, (k, v) ∈ d -> x ∉ expand_strings_default [k]) ->
  Dict.get (fold_left expand_entry d result) x = Dict.get result x.
Proof.
  revert result. induction d as [|[k v] d IH]; intros result Hmiss;
    cbn [fold_left]; [reflexivity|].
  rewrite IH.
  - rewrite expand_entry_get, decide_False; [reflexivity|].
    apply (Hmiss k v). apply elem_of_cons. left. reflexivity.
  - intros k' v' Hin. apply (Hmiss k' v'). apply elem_of_cons. right. exact Hin.
Qed.

(** The last entry whose expansion holds [x] decides the lookup of [x]. *)
Lemma expand_loop_last d1 d2 result k v x :
  x ∈ expand_strings_default [k] ->
  (forall k' v', (k', v') ∈ d2 -> x ∉ expand_strings_default [k']) ->
  Dict.get (fold_left expand_entry (d1 ++ (k, v) :: d2)%list result) x = Some v.
Proof.
  intros Hx Hmiss. rewrite fold_left_app. cbn [fold_left].
  rewrite (expand_loop_miss d2 _ x Hmiss), expand_entry_get.
  rewrite decide_True; [reflexivity|exact Hx].
Qed.

Lemma expand_loop_sound d result x v :
  Dict.get (fold_left expand_entry d result) x = Some v ->
  Dict.get result x = Some v
  \/ exists k, (k, v) ∈ d /\ x ∈ expand_strings_default [k].
Proof.
  revert result. induction d as [|[k0 v0] d IH]; intros result; cbn [fold_left];
    [auto|].
  intros Hget. apply IH in Hget as [Hget|(k & Hin & Hx)].
  - rewrite expand_entry_get in Hget.
    destruct (decide (x ∈ expand_strings_default [k0])) as [Hx|Hx].
    + injection Hget as ->. right. exists k0.
      split; [apply elem_of_cons; left; reflexivity|exact Hx].
    + left. exact Hget.
  - right. exists k. split; [apply elem_of_cons; right; exact Hin|exact Hx].
Qed.

Lemma expand_loop_is_Some d result x :
  is_Some (Dict.get (fold_left expand_entry d result) x)
  <-> is_Some (Dict.get result x)
      \/ exists k v, (k, v) ∈ d /\ x ∈ expand_strings_default [k].
Proof.
  revert result. induction d as [|[k0 v0] d IH]; intros result; cbn [fold_left].
  - split; [auto|]. intros [Hs|(k & v & Hin & _)]; [exact Hs|inversion Hin].
  - rewrite IH, expand_entry_get. split.
    + intros [Hs|(k & v & Hin & Hx)].
      * destruct (decide (x ∈ expand_strings_default [k0])) as [Hx|Hx].
        -- right. exists k0, v0.
           split; [apply elem_of_cons; left; reflexivity|exact Hx].
        -- left. exact Hs.
      * right. exists k, v. split; [apply elem_of_cons; right; exact Hin|exact Hx].
    + intros [Hs|(k & v & Hin & Hx)].
      * left. destruct (decide (x ∈ expand_strings_default [k0]));
          [eexists; reflexivity|exact Hs].
      * apply elem_of_cons in Hin as [[= -> ->]|Hin].
        -- left. rewrite decide_True by exact Hx. eexists; reflexivity.
        -- right. exists k, v. auto.
Qed.

Lemma wf_split_later d1 d2 k v k' (v' : V) :
  Dict.wf (d1 ++ (k, v) :: d2)%list -> (k', v') ∈ d2 -> k' <> k.
Proof.
  unfold Dict.wf, Dict.keys. rewrite map_app. cbn [map fst].
  intros Hwf Hin ->. apply NoDup_app in Hwf as (_ & _ & Hwf).
  apply NoDup_cons in Hwf as [Hk _]. apply Hk.
  apply list_elem_of_fmap. exists (k, v'). split; [reflexivity|exact Hin].
Qed.

End ExpandDictKeys.

(** X11. The keys of [apply_string_expansion_to_dict_keys(d)] are exactly
    the members of the expansions of the keys of [d]; the value found under
    a string is the value of a key of [d] whose expansion holds the string;
    and the result is a dict (its keys are distinct). *)
Theorem expansion_dict_keys_domain {V : Type} (d : Dict.t V) :
  (forall x, is_Some (Dict.get (apply_string_expansion_to_dict_keys d) x)
             <-> exists k v, (k, v) ∈ d /\ x ∈ expand_strings_default [k])
  /\ (forall x v, Dict.get (apply_string_expansion_to_dict_keys d) x = Some v ->
                  exists k, (k, v) ∈ d /\ x ∈ expand_strings_default [k])
  /\ Dict.wf (apply_string_expansion_to_dict_keys d).
Proof.
  unfold apply_string_expansion_to_dict_keys. split; [|split].
  - intros x. rewrite expand_loop_is_Some. split.
    + intros [[v Hv]|Hex]; [discriminate Hv|exact Hex].
    + intros Hex. right. exact Hex.
  - intros x v Hget. apply expand_loop_sound in Hget as [Hget|Hex];
      [discriminate Hget|exact Hex].
  - apply expand_loop_wf. apply NoDup_nil_2.
Qed.

(** X12. When the expansions of two keys collide, the key processed later
    wins: the value found under [x] is the value of the last item of [d]
    whose key expands to [x]. *)
Theorem expansion_dict_keys_last_wins {V : Type} (d1 d2 : Dict.t V)
    (k x : string) (v : V)
    (Hx : x ∈ expand_strings_default [k])
    (Hlater : forall k' v', (k', v') ∈ d2 -> x ∉ expand_strings_default [k']) :
  Dict.get (apply_string_expansion_to_dict_keys (d1 ++ (k, v) :: d2)%list) x = Some v.
Proof. apply expand_loop_last; assumption. Qed.

Lemma expansion_dict_keys_last_wins_witness :
  "a" ∈ expand_strings_default ["A"]
  /\ Dict.get (apply_string_expansion_to_dict_keys [("a", 1); ("A", 2)]) "a"
     = Some 2.
Proof.
  assert (Hx : "a" ∈ expand_strings_default ["A"]).
  { apply (bool_decide_unpack _). vm_compute. exact I. }
  split; [exact Hx|].
  apply (expansion_dict_keys_last_wins [("a", 1)] [] "A" "a" 2 Hx).
  intros k' v' Hin. inversion Hin.
Defined.

(** X13. Without collisions the expanded dictionary extends [d]: when no
    other key of [d] expands to [x], the value of [k] is found under every
    [x] of the expansion of [k], and under [k] itself. *)
Theorem expansion_dict_keys_extends {V : Type} (d : Dict.t V) (k x : string) (v : V)
    (Hwf : Dict.wf d)
    (Hget : Dict.get d k = Some v)
    (Hx : x ∈ expand_strings_default [k])
    (Hother : forall k' v', (k', v') ∈ d -> k' <> k ->
                            x ∉ expand_strings_default [k']) :
  Dict.get (apply_string_expansion_to_dict_keys d) x = Some v.
Proof.
  apply (wf_get_elem_of d k v Hwf) in Hget.
  apply list_elem_of_split in Hget as (d1 & d2 & ->).
  apply expand_loop_last; [exact Hx|].
  intros k' v' Hin. apply (Hother k' v').
  - apply elem_of_app. right. apply elem_of_cons. right. exact Hin.
  - exact (wf_split_later d1 d2 k v k' v' Hwf Hin).
Qed.

Lemma expansion_dict_keys_extends_witness :
  Dict.wf [("A-1", 1); ("B", 2)]
  /\ Dict.get (apply_string_expansion_to_dict_keys [("A-1", 1); ("B", 2)]) "a1"
     = Some 1.
Proof.
  assert (Hwf : Dict.wf [("A-1", 1); ("B", 2)]).
  { unfold Dict.wf. apply (bool_decide_unpack _). vm_compute. exact I. }
  split; [exact Hwf|].
  apply (expansion_dict_keys_extends [("A-1", 1); ("B", 2)] "A-1" "a1" 1 Hwf).
  - reflexivity.
  - apply (bool_decide_unpack _). vm_compute. exact I.
  - intros k' v' Hin Hne.
    apply elem_of_cons in Hin as [[= -> ->]|Hin]; [contradiction|].
    apply list_elem_of_singleton in Hin. injection Hin as -> ->.
    apply (bool_decide_unpack _). vm_compute. exact I.
Defined.

Section InvertAndExpand.

Lemma invert_dictionary_wf (d : Dict.t pyval) : Dict.wf (invert_dictionary d).
Proof. apply invert_loop_wf. apply NoDup_nil_2. Qed.

Lemma invert_dictionary_keys_of (d : Dict.t pyval) (v : string) (ks : gset string) :
  Dict.wf d ->
  Dict.get (invert_dictionary d) v = Some ks ->
  forall k, k ∈ ks <-> exists val, Dict.get d k = Some val /\ yields val v.
Proof.
  intros Hwf Hks k.
  pose proof (invert_loop_entry d [] v k) as Hiff.
  fold (invert_dictionary d) in Hiff.
  unfold entry at 1 in Hiff. rewrite Hks in Hiff. simpl in Hiff.
  rewrite Hiff. split.
  - intros [Hk|(val & Hin & Hy)]; [exfalso; exact (not_elem_of_empty k Hk)|].
    exists val. split; [apply wf_get_elem_of; assumption|exact Hy].
  - intros (val & Hget & Hy). right. exists val.
    split; [apply wf_get_elem_of; assumption|exact Hy].
Qed.

Lemma invert_dictionary_is_Some (d : Dict.t pyval) (v : string) :
  Dict.wf d ->
  is_Some (Dict.get (invert_dictionary d) v)
  <-> exists k val, Dict.get d k = Some val /\ yields val v.
Proof.
  intros Hwf. unfold invert_dictionary. rewrite invert_loop_is_Some. split.
  - intros [[x Hx]|(k & val & Hin & Hy)]; [discriminate Hx|].
    exists k, val. split; [apply wf_get_elem_of; assumption|exact Hy].
  - intros (k & val & Hget & Hy). right. exists k, val.
    split; [apply wf_get_elem_of; assumption|exact Hy].
Qed.

End InvertAndExpand.

(** X14. [invert_and_expand_dictionary(d)] has an entry under [x] exactly
    when [x] is in the expansion of a value element of [d], and the set found
    under [x] is the complete set of keys of one value element whose
    expansion holds [x]. *)
Theorem invert_and_expand_dictionary_spec (d : Dict.t pyval) (Hwf : Dict.wf d) :
  (forall x, is_Some (Dict.get (invert_and_expand_dictionary d) x)
             <-> exists k val v, Dict.get d k = Some val /\ yields val v
                                 /\ x ∈ expand_strings_default [v])
  /\ (forall x ks, Dict.get (invert_and_expand_dictionary d) x = Some ks ->
        exists v, x ∈ expand_strings_default [v]
                  /\ forall k, k ∈ ks
                               <-> exists val, Dict.get d k = Some val /\ yields val v).
Proof.
  unfold invert_and_expand_dictionary, apply_string_expansion_to_dict_keys.
  split.
  - intros x. rewrite expand_loop_is_Some. split.
    + intros [[ks Hks]|(v & ks & Hin & Hx)]; [discriminate Hks|].
      apply (wf_get_elem_of _ v ks (invert_dictionary_wf d)) in Hin.
      destruct (proj1 (invert_dictionary_is_Some d v Hwf) (mk_is_Some _ _ Hin))
        as (k & val & Hget & Hy).
      exists k, val, v. auto.
    + intros (k & val & v & Hget & Hy & Hx). right.
      destruct (proj2 (invert_dictionary_is_Some d v Hwf)) as [ks Hks];
        [exists k, val; auto|].
      exists v, ks. split; [|exact Hx].
      apply (wf_get_elem_of _ v ks (invert_dictionary_wf d)). exact Hks.
  - intros x ks Hget.
    apply expand_loop_sound in Hget as [Hget|(v & Hin & Hx)];
      [discriminate Hget|].
    apply (wf_get_elem_of _ v ks (invert_dictionary_wf d)) in Hin.
    exists v. split; [exact Hx|].
    apply invert_dictionary_keys_of; assumption.
Qed.

Lemma invert_and_expand_dictionary_spec_witness :
  Dict.wf [("x", VList ["a"; "b"]); ("y", VStr "a")]
  /\ is_Some (Dict.get (invert_and_expand_dictionary
                          [("x", VList ["a"; "b"]); ("y", VStr "a")]) "A").
Proof.
  assert (Hwf : Dict.wf [("x", VList ["a"; "b"]); ("y", VStr "a")]).
  { unfold Dict.wf. apply (bool_decide_unpack _). vm_compute. exact I. }
  split; [exact Hwf|].
  apply (proj1 (invert_and_expand_dictionary_spec _ Hwf)).
  exists "y", (VStr "a"), "a". split; [reflexivity|]. split; [reflexivity|].
  apply (bool_decide_unpack _). vm_compute. exact I.
Defined.

(** ** Invariants of the container *)

Section ContainerInvariants.
Context {V H : Type}.
Implicit Types (self : NormalizingDictionary V H) (k n : string) (v : V).

Lemma empty_consistent (nf : string -> string) (f : option (H -> V * H)) :
  consistent (init (V := V) [] nf f).
Proof.
  unfold consistent, init. simpl. split; [|split; [|split]].
  - intros k n Hget. discriminate Hget.
  - intros k n. unfold entry. simpl. split.
    + intros Hk. exfalso. exact (not_elem_of_empty k Hk).
    + intros Hget. discriminate Hget.
  - reflexivity.
  - apply NoDup_nil_2.
Qed.

Lemma defaultdict_add_keys (d : Dict.t (gset string)) (n k : string) :
  Dict.keys (defaultdict_add d n k)
  = if decide (n ∈ Dict.keys d) then Dict.keys d else (Dict.keys d ++ [n])%list.
Proof.
  unfold defaultdict_add. destruct (Dict.get d n); apply keys_set.
Qed.

Lemma setitem_consistent self k v :
  consistent self -> consistent (setitem self k v).
Proof.
  intros (Hmap & Hinv & Hkeys & Hwf).
  unfold consistent. cbn [setitem store original_to_normalized_key_dict
                          normalized_to_original_keys_dict normalize_fn].
  split; [|split; [|split]].
  - intros k' n. rewrite get_set.
    destruct (decide (k = k')) as [->|Hne]; [|apply Hmap].
    intros [= <-]. reflexivity.
  - intros k' n. rewrite defaultdict_add_entry, get_set.
    destruct (decide (normalize_fn self k = n)) as [Hn|Hn],
             (decide (k = k')) as [Hk|Hk].
    + subst. split; [reflexivity|]. intros _.
      apply elem_of_union. left. apply elem_of_singleton. reflexivity.
    + rewrite elem_of_union, elem_of_singleton, Hinv. split.
      * intros [Heq|Hget]; [congruence|exact Hget].
      * intros Hget. right. exact Hget.
    + subst k'. rewrite Hinv. split.
      * intros Hget. apply Hmap in Hget. congruence.
      * intros [= Heq]. contradiction.
    + apply Hinv.
  - rewrite defaultdict_add_keys, keys_set, Hkeys. reflexivity.
  - apply wf_set, Hwf.
Qed.

Lemma fold_setitem_consistent (pairs : list (string * V)) self :
  consistent self ->
  consistent (fold_left (fun self '(k, v) => setitem self k v) pairs self).
Proof.
  revert self. induction pairs as [|[k v] pairs IH]; intros self Hc;
    cbn [fold_left]; [exact Hc|]. apply IH, setitem_consistent, Hc.
Qed.

Lemma fold_setitem_normalize_fn (pairs : list (string * V)) self :
  normalize_fn (fold_left (fun self '(k, v) => setitem self k v) pairs self)
  = normalize_fn self.
Proof.
  revert self. induction pairs as [|[k v] pairs IH]; intros self;
    cbn [fold_left]; [reflexivity|]. rewrite IH. reflexivity.
Qed.

Lemma fold_setitem_default_value_fn (pairs : list (string * V)) self :
  default_value_fn (fold_left (fun self '(k, v) => setitem self k v) pairs self)
  = default_value_fn self.
Proof.
  revert self. induction pairs as [|[k v] pairs IH]; intros self;
    cbn [fold_left]; [reflexivity|]. rewrite IH. reflexivity.
Qed.

(** The original keys recorded by a run of assignments. *)
Lemma fold_setitem_original (pairs : list (string * V)) self k :
  Dict.get (original_to_normalized_key_dict
              (fold_left (fun self '(k, v) => setitem self k v) pairs self)) k
  = if decide (k ∈ map fst pairs) then Some (normalize_fn self k)
    else Dict.get (original_to_normalized_key_dict self) k.
Proof.
  revert self. induction pairs as [|[k0 v0] pairs IH]; intros self;
    cbn [fold_left map fst].
  - rewrite decide_False; [reflexivity|]. intros Hin. inversion Hin.
  - rewrite IH. cbn [setitem original_to_normalized_key_dict normalize_fn].
    rewrite get_set.
    destruct (decide (k ∈ map fst pairs)) as [Hin|Hin].
    + rewrite (decide_True (P := k ∈ k0 :: map fst pairs))
        by (apply elem_of_cons; right; exact Hin). reflexivity.
    + destruct (decide (k0 = k)) as [->|Hne].
      * rewrite (decide_True (P := k ∈ k :: map fst pairs))
          by (apply elem_of_cons; left; reflexivity). reflexivity.
      * rewrite decide_False; [reflexivity|].
        rewrite not_elem_of_cons. split; [congruence|exact Hin].
Qed.

(** When the key sets are kept under every key of the list, reading them
    inserts nothing. *)
Lemma aligned_fold_present (ks : list string) (acc : list (gset string))
    (d : Dict.t (gset string)) :
  (forall n, n ∈ ks -> is_Some (Dict.get d n)) ->
  fold_left
    (fun '(aligned, n2o) k =>
       let '(s, n2o) := defaultdict_getitem n2o k in
       ((aligned ++ [s])%list, n2o))
    ks (acc, d)
  = ((acc ++ map (entry d) ks)%list, d).
Proof.
  revert acc. induction ks as [|a ks IH]; intros acc Hall; cbn [fold_left map].
  - rewrite app_nil_r. reflexivity.
  - destruct (Hall a) as [s Hs]; [apply elem_of_cons; left; reflexivity|].
    assert (Hd : defaultdict_getitem d a = (s, d))
      by (unfold defaultdict_getitem; rewrite Hs; reflexivity).
    rewrite Hd, IH.
    + unfold entry at 2. rewrite Hs. simpl. rewrite <- app_assoc. reflexivity.
    + intros n Hn. apply Hall. apply elem_of_cons. right. exact Hn.
Qed.

Lemma keys_aligned_consistent self :
  consistent self ->
  keys_aligned_with_values self
  = (map (entry (normalized_to_original_keys_dict self)) (normalized_keys self),
     self).
Proof.
  intros (_ & _ & Hkeys & _). unfold keys_aligned_with_values.
  rewrite aligned_fold_present.
  - destruct self. reflexivity.
  - intros n Hn. unfold normalized_keys in Hn. rewrite <- Hkeys in Hn.
    destruct (Dict.get (normalized_to_original_keys_dict self) n) eqn:Hget;
      [eexists; reflexivity|].
    apply get_None_keys in Hget. contradiction.
Qed.

Lemma combine_map_elem {A B : Type} (f : A -> B) (l : list A) (a : A) (b : B) :
  (a, b) ∈ combine l (map f l) -> b = f a.
Proof.
  induction l as [|x l IH]; simpl; intros Hin; [inversion Hin|].
  apply elem_of_cons in Hin as [[= -> ->]|Hin]; [reflexivity|exact (IH Hin)].
Qed.

End ContainerInvariants.

(** X15. Every container the constructor builds from a list of pairs is
    consistent: each recorded original key is mapped to its normalized form,
    the key set kept under a normalized key holds exactly the original keys
    mapped to it, the key sets and the store have the same keys in the same
    order, and the keys of the store are distinct. *)
Theorem init_consistent {V H : Type} (pairs : list (string * V))
    (nf : string -> string) (f : option (H -> V * H)) :
  consistent (init pairs nf f).
Proof. apply fold_setitem_consistent, (empty_consistent nf f). Qed.

(** X16. Assignment keeps a consistent container consistent. *)
Theorem setitem_keeps_consistent {V H : Type} (self : NormalizingDictionary V H)
    (k : string) (v : V) (Hc : consistent self) :
  consistent (setitem self k v).
Proof. apply setitem_consistent, Hc. Qed.

Lemma setitem_keeps_consistent_witness :
  consistent (init (V := nat) (H := unit) [("a", 1)] normalize_string_default None)
  /\ consistent
       (setitem
          (init (V := nat) (H := unit) [("a", 1)] normalize_string_default None)
          "A" 2).
Proof.
  assert (Hc : consistent (init (V := nat) (H := unit) [("a", 1)]
                             normalize_string_default None)).
  { apply fold_setitem_consistent, empty_consistent. }
  split; [exact Hc|].
  exact (setitem_keeps_consistent _ "A" 2 Hc).
Defined.

(** X17. On a consistent container [keys_aligned_with_values] changes
    nothing and returns, for the normalized keys in the order of the store,
    the key sets kept under them. *)
Theorem keys_aligned_with_values_consistent {V H : Type}
    (self : NormalizingDictionary V H) (Hc : consistent self) :
  keys_aligned_with_values self
  = (map (entry (normalized_to_original_keys_dict self)) (normalized_keys self),
     self).
Proof. apply keys_aligned_consistent, Hc. Qed.

Lemma keys_aligned_with_values_consistent_witness :
  let nd := init (V := nat) (H := unit) [("a-b", 1); ("c", 2); ("AB", 3)]
              normalize_string_default None in
  consistent nd
  /\ keys_aligned_with_values nd = ([{[ "a-b"; "AB" ]}; {[ "c" ]}], nd).
Proof.
  intros nd.
  assert (Hc : consistent nd).
  { apply fold_setitem_consistent, empty_consistent. }
  split; [exact Hc|].
  rewrite (keys_aligned_with_values_consistent nd Hc).
  apply (f_equal (fun aligned => (aligned, nd))).
  vm_compute. reflexivity.
Defined.

(** X18. For a container built by the constructor, the key set that
    [keys_aligned_with_values] pairs with a normalized key holds exactly the
    keys of the given pairs that normalize to it. *)
Theorem init_aligned_keys {V H : Type} (pairs : list (string * V))
    (nf : string -> string) (f : option (H -> V * H))
    (n : string) (ks : gset string)
    (Hin : (n, ks) ∈ combine (normalized_keys (init pairs nf f))
                             (keys_aligned_with_values (init pairs nf f)).1) :
  forall k, k ∈ ks <-> k ∈ map fst pairs /\ nf k = n.
Proof.
  assert (Hc : consistent (init pairs nf f))
    by exact (fold_setitem_consistent pairs _ (empty_consistent nf f)).
  rewrite (keys_aligned_consistent (init pairs nf f) Hc) in Hin. cbn [fst] in Hin.
  apply combine_map_elem in Hin. subst ks.
  destruct Hc as (_ & Hinv & _). intros k. rewrite Hinv.
  unfold init. rewrite fold_setitem_original. cbn [normalize_fn
    original_to_normalized_key_dict Dict.get].
  destruct (decide (k ∈ map fst pairs)) as [Hk|Hk].
  - split; [intros [= <-]; auto|]. intros [_ <-]. reflexivity.
  - split; [discriminate|]. intros [Hk' _]. contradiction.
Qed.

Lemma init_aligned_keys_witness :
  let nd := init (V := nat) (H := unit) [("a-b", 1); ("c", 2); ("AB", 3)]
              normalize_string_default None in
  ("AB", {[ "a-b"; "AB" ]})
    ∈ combine (normalized_keys nd) (keys_aligned_with_values nd).1
  /\ ("a-b" ∈ ({[ "a-b"; "AB" ]} : gset string)
      <-> "a-b" ∈ map fst [("a-b", 1); ("c", 2); ("AB", 3)]
          /\ normalize_string_default "a-b" = "AB").
Proof.
  intros nd.
  assert (Hin : ("AB", {[ "a-b"; "AB" ]})
                  ∈ combine (normalized_keys nd) (keys_aligned_with_values nd).1).
  { vm_compute. apply elem_of_cons. left. reflexivity. }
  split; [exact Hin|].
  exact (init_aligned_keys [("a-b", 1); ("c", 2); ("AB", 3)]
           normalize_string_default None "AB" {[ "a-b"; "AB" ]} Hin "a-b").
Defined.

(** ** Construction, [get] and the lookups of a container *)

Section ContainerProperties.
Context {V H : Type}.
Implicit Types (self : NormalizingDictionary V H) (k n : string) (v : V) (h : H).

Lemma fold_setitem_store_miss (pairs : list (string * V)) self n :
  (forall k v, (k, v) ∈ pairs -> normalize_fn self k <> n) ->
  Dict.get (store (fold_left (fun self '(k, v) => setitem self k v) pairs self)) n
  = Dict.get (store self) n.
Proof.
  revert self. induction pairs as [|[k0 v0] pairs IH]; intros self Hmiss;
    cbn [fold_left]; [reflexivity|].
  rewrite IH.
  - rewrite store_setitem. apply get_set_ne.
    apply (Hmiss k0 v0). apply elem_of_cons. left. reflexivity.
  - intros k v Hin. apply (Hmiss k v). apply elem_of_cons. right. exact Hin.
Qed.

Lemma fold_setitem_store_last (p1 p2 : list (string * V)) self k v :
  (forall k' v', (k', v') ∈ p2 -> normalize_fn self k' <> normalize_fn self k) ->
  Dict.get
    (store (fold_left (fun self '(k, v) => setitem self k v)
                      (p1 ++ (k, v) :: p2)%list self))
    (normalize_fn self k)
  = Some v.
Proof.
  intros Hlater. rewrite fold_left_app. cbn [fold_left].
  set (self1 := fold_left _ p1 self).
  assert (Hnf : normalize_fn self1 = normalize_fn self)
    by apply fold_setitem_normalize_fn.
  rewrite fold_setitem_store_miss.
  - rewrite store_setitem, Hnf. apply get_set_eq.
  - intros k' v' Hin. cbn [setitem normalize_fn]. rewrite Hnf.
    apply (Hlater k' v' Hin).
Qed.

Lemma get_setitem_eq self k k' v (d : V) :
  get (setitem self k v) k' d
  = if decide (normalize_fn self k = normalize_fn self k') then v
    else get self k' d.
Proof.
  unfold get. cbn [setitem store normalize_fn]. rewrite get_set.
  destruct (decide (normalize_fn self k = normalize_fn self k')); reflexivity.
Qed.

End ContainerProperties.

(** X19. The constructor assigns the pairs in order, so the last pair
    whose key has a given normalized form decides the stored value: every
    key with that normalized form looks up its value. *)
Theorem init_last_pair_wins {V H : Type} (p1 p2 : list (string * V))
    (nf : string -> string) (f : option (H -> V * H))
    (k k' : string) (v : V) (h : H)
    (Hlater : forall k2 v2, (k2, v2) ∈ p2 -> nf k2 <> nf k)
    (Hk : nf k' = nf k) :
  getitem (init (p1 ++ (k, v) :: p2)%list nf f) k' h
  = (Ret v, init (p1 ++ (k, v) :: p2)%list nf f, h).
Proof.
  apply getitem_present. unfold init.
  rewrite fold_setitem_normalize_fn. cbn [normalize_fn]. rewrite Hk.
  apply (fold_setitem_store_last p1 p2
           {| store := []; original_to_normalized_key_dict := [];
              normalized_to_original_keys_dict := [];
              normalize_fn := nf; default_value_fn := f |} k v).
  exact Hlater.
Qed.

Lemma init_last_pair_wins_witness :
  (getitem
     (init (V := nat) (H := unit) [("a-b", 1); ("AB", 2); ("c", 3)]
           normalize_string_default None) "ab" tt).1.1
  = Ret 2.
Proof.
  refine (f_equal (fun r => r.1.1)
            (init_last_pair_wins (H := unit) [("a-b", 1)] [("c", 3)]
               normalize_string_default None "AB" "ab" 2 tt _ _)).
  - intros k2 v2 Hin. apply list_elem_of_singleton in Hin.
    injection Hin as -> ->. vm_compute. discriminate.
  - reflexivity.
Defined.

(** X20. A key whose normalized form is the normalized form of no given
    pair is missing from the constructed container: without a default-value
    factory its lookup raises [KeyError] with that key and changes nothing,
    and [get] returns the fallback, with or without a factory. *)
Theorem init_missing_key {V H : Type} (pairs : list (string * V))
    (nf : string -> string) (k : string) (h : H)
    (Hmiss : forall k' v', (k', v') ∈ pairs -> nf k' <> nf k) :
  getitem (init (H := H) pairs nf None) k h
  = (Raise (KeyError k), init pairs nf None, h)
  /\ forall (f : option (H -> V * H)) (d : V), get (init pairs nf f) k d = d.
Proof.
  assert (Habs : forall f : option (H -> V * H),
            Dict.get (store (init pairs nf f)) (normalize_fn (init pairs nf f) k)
            = None).
  { intros f. unfold init. rewrite fold_setitem_normalize_fn. cbn [normalize_fn].
    rewrite fold_setitem_store_miss; [reflexivity|]. exact Hmiss. }
  split.
  - apply getitem_absent_no_factory; [apply Habs|].
    unfold init. rewrite fold_setitem_default_value_fn. reflexivity.
  - intros f d. unfold get. rewrite Habs. reflexivity.
Qed.

Lemma init_missing_key_witness :
  (forall k' (v' : nat), (k', v') ∈ [("a-b", 1)] ->
     normalize_string_default k' <> normalize_string_default "a_c")
  /\ (getitem (init (V := nat) (H := unit) [("a-b", 1)]
                    normalize_string_default None) "a_c" tt).1.1
     = Raise (KeyError "a_c").
Proof.
  assert (Hmiss : forall k' (v' : nat), (k', v') ∈ [("a-b", 1)] ->
            normalize_string_default k' <> normalize_string_default "a_c").
  { intros k' v' Hin. apply list_elem_of_singleton in Hin.
    injection Hin as -> ->. vm_compute. discriminate. }
  split; [exact Hmiss|].
  exact (f_equal (fun r => r.1.1)
           (proj1 (init_missing_key (H := unit) [("a-b", 1)]
                     normalize_string_default "a_c" tt Hmiss))).
Defined.

(** X21. [get] after an assignment: a key with the normalized form of the
    assigned key gets the assigned value, and for every other key [get]
    answers as before the assignment. *)
Theorem get_setitem {V H : Type} (self : NormalizingDictionary V H)
    (k k' : string) (v d : V) :
  get (setitem self k v) k' d
  = if decide (normalize_fn self k = normalize_fn self k') then v
    else get self k' d.
Proof. apply get_setitem_eq. Qed.

(** X22. What an assignment records: the original key is mapped to its
    normalized form, it joins the key set of that normalized form, no key
    leaves any key set, and the records of the other original keys are
    untouched. *)
Theorem setitem_records_original {V H : Type} (self : NormalizingDictionary V H)
    (k : string) (v : V) :
  Dict.get (original_to_normalized_key_dict (setitem self k v)) k
  = Some (normalize_fn self k)
  /\ k ∈ entry (normalized_to_original_keys_dict (setitem self k v))
              (normalize_fn self k)
  /\ (forall k' n, k' ∈ entry (normalized_to_original_keys_dict self) n ->
                   k' ∈ entry (normalized_to_original_keys_dict (setitem self k v)) n)
  /\ (forall k', k' <> k ->
        Dict.get (original_to_normalized_key_dict (setitem self k v)) k'
        = Dict.get (original_to_normalized_key_dict self) k').
Proof.
  cbn [setitem original_to_normalized_key_dict normalized_to_original_keys_dict].
  split; [apply get_set_eq|]. split; [|split].
  - rewrite defaultdict_add_entry, decide_True by reflexivity.
    apply elem_of_union. left. apply elem_of_singleton. reflexivity.
  - intros k' n Hk'. rewrite defaultdict_add_entry.
    destruct (decide (normalize_fn self k = n)); [|exact Hk'].
    apply elem_of_union. right. exact Hk'.
  - intros k' Hne. apply get_set_ne. congruence.
Qed.

(** X23. A lookup never touches the auxiliary mappings, the normalization
    function or the factory, and never changes a value that is stored: it
    can only add the entry of a missing key. *)
Theorem getitem_preserves {V H : Type} (self : NormalizingDictionary V H)
    (k : string) (h : H) :
  original_to_normalized_key_dict (getitem self k h).1.2
  = original_to_normalized_key_dict self
  /\ normalized_to_original_keys_dict (getitem self k h).1.2
     = normalized_to_original_keys_dict self
  /\ normalize_fn (getitem self k h).1.2 = normalize_fn self
  /\ default_value_fn (getitem self k h).1.2 = default_value_fn self
  /\ (forall n, is_Some (Dict.get (store self) n) ->
                Dict.get (store (getitem self k h).1.2) n = Dict.get (store self) n).
Proof.
  destruct (Dict.get (store self) (normalize_fn self k)) as [x|] eqn:Hget.
  { rewrite (getitem_present self k x h Hget). repeat split; reflexivity. }
  destruct (default_value_fn self) as [f|] eqn:Hf.
  - rewrite (getitem_absent_factory self k h f Hget Hf).
    cbn [fst snd with_store store original_to_normalized_key_dict
         normalized_to_original_keys_dict normalize_fn default_value_fn].
    repeat split; [exact Hf|].
    intros n [y Hy]. apply get_set_ne. intros Heq. congruence.
  - rewrite (getitem_absent_no_factory self k h Hget Hf).
    cbn [fst snd]. repeat split; try reflexivity. exact Hf.
Qed.

(** X24. [items] yields one pair per stored value, in the order of the
    store: the list of key sets has the length of the list of values and the
    second components of the items are the values. *)
Theorem items_one_per_value {V H : Type} (self : NormalizingDictionary V H) :
  map snd (items self).1 = values self
  /\ length (keys_aligned_with_values self).1 = length (values self)
  /\ length (items self).1 = length (store self).
Proof.
  pose proof (items_values self) as Hv.
  assert (Hlen : length (keys_aligned_with_values self).1 = length (values self)).
  { unfold keys_aligned_with_values.
    pose proof (aligned_length (normalized_keys self) []
                  (normalized_to_original_keys_dict self)) as Hl.
    destruct (fold_left _ (normalized_keys self) _) as [aligned n2o].
    simpl in *. rewrite Hl. unfold normalized_keys, values, Dict.keys, Dict.values.
    rewrite !length_map. reflexivity. }
  split; [exact Hv|]. split; [exact Hlen|].
  rewrite <- (length_map snd), Hv. unfold values, Dict.values.
  apply length_map.
Qed.

(** ** Reading the key sets after a default value was created *)

Section AlignedAfterDefault.

Lemma aligned_loop_cons (a : string) (ks : list string)
    (acc : list (gset string)) (d : Dict.t (gset string)) :
  aligned_loop (a :: ks) (acc, d)
  = aligned_loop ks ((acc ++ [(defaultdict_getitem d a).1])%list,
                     (defaultdict_getitem d a).2).
Proof.
  unfold aligned_loop. cbn [fold_left].
  destruct (defaultdict_getitem d a) as [s d']. reflexivity.
Qed.

Lemma aligned_loop_acc (ks : list string) (acc : list (gset string))
    (d : Dict.t (gset string)) :
  aligned_loop ks (acc, d)
  = ((acc ++ (aligned_loop ks ([], d)).1)%list, (aligned_loop ks ([], d)).2).
Proof.
  revert acc d. induction ks as [|a ks IH]; intros acc d.
  - unfold aligned_loop. simpl. rewrite app_nil_r. reflexivity.
  - rewrite !aligned_loop_cons.
    rewrite (IH (acc ++ _)%list), (IH ([] ++ _)%list). cbn [fst snd].
    rewrite <- app_assoc. reflexivity.
Qed.

Lemma defaultdict_getitem_other (d : Dict.t (gset string)) (a m : string) :
  a <> m -> Dict.get (defaultdict_getitem d a).2 m = Dict.get d m.
Proof.
  intros Hne. unfold defaultdict_getitem.
  destruct (Dict.get d a); [reflexivity|]. apply get_set_ne, Hne.
Qed.

Lemma aligned_loop_other (ks : list string) (acc : list (gset string))
    (d : Dict.t (gset string)) (m : string) :
  m ∉ ks -> Dict.get (aligned_loop ks (acc, d)).2 m = Dict.get d m.
Proof.
  revert acc d. induction ks as [|a ks IH]; intros acc d Hm; [reflexivity|].
  apply not_elem_of_cons in Hm as [Hne Hm].
  rewrite aligned_loop_cons, IH by exact Hm.
  apply defaultdict_getitem_other. congruence.
Qed.

Lemma aligned_loop_snoc (ks : list string) (n : string)
    (acc : list (gset string)) (d : Dict.t (gset string)) :
  aligned_loop (ks ++ [n]) (acc, d)
  = (((aligned_loop ks (acc, d)).1
      ++ [(defaultdict_getitem (aligned_loop ks (acc, d)).2 n).1])%list,
     (defaultdict_getitem (aligned_loop ks (acc, d)).2 n).2).
Proof.
  unfold aligned_loop. rewrite fold_left_app. cbn [fold_left].
  destruct (fold_left _ ks (acc, d)) as [aligned d1]. cbn [fst snd].
  destruct (defaultdict_getitem d1 n) as [s d2]. reflexivity.
Qed.

Lemma keys_aligned_as_loop {V H : Type} (self : NormalizingDictionary V H) :
  (keys_aligned_with_values self).1
  = (aligned_loop (normalized_keys self)
                  ([], normalized_to_original_keys_dict self)).1
  /\ normalized_to_original_keys_dict (keys_aligned_with_values self).2
     = (aligned_loop (normalized_keys self)
                     ([], normalized_to_original_keys_dict self)).2.
Proof.
  unfold keys_aligned_with_values, aligned_loop.
  destruct (fold_left _ (normalized_keys self) _) as [aligned n2o].
  split; reflexivity.
Qed.

End AlignedAfterDefault.

(** X25. A key that only a default value created has no original key: after
    a lookup has created the default value of a missing key that was never
    assigned, [keys_aligned_with_values] returns the key sets it returned
    before followed by an empty set, and it inserts that empty set into the
    mapping from normalized to original keys. *)
Theorem default_created_key_has_no_originals {V H : Type}
    (self : NormalizingDictionary V H) (k : string) (h : H) (f : H -> V * H)
    (Hf : default_value_fn self = Some f)
    (Habs : Dict.get (store self) (normalize_fn self k) = None)
    (Hnew : Dict.get (normalized_to_original_keys_dict self) (normalize_fn self k)
            = None) :
  (keys_aligned_with_values (getitem self k h).1.2).1
  = ((keys_aligned_with_values self).1 ++ [∅])%list
  /\ Dict.get (normalized_to_original_keys_dict self) (normalize_fn self k) = None
  /\ Dict.get (normalized_to_original_keys_dict
                 (keys_aligned_with_values (getitem self k h).1.2).2)
              (normalize_fn self k)
     = Some ∅.
Proof.
  rewrite (getitem_absent_factory self k h f Habs Hf). cbn [fst snd].
  set (n := normalize_fn self k) in *.
  set (self' := with_store self (Dict.set (store self) n (f h).1)).
  assert (Hn : n ∉ Dict.keys (store self)) by (apply get_None_keys, Habs).
  assert (Hkeys : normalized_keys self' = (normalized_keys self ++ [n])%list).
  { unfold normalized_keys, self'. cbn [with_store store].
    rewrite keys_set, decide_False by exact Hn. reflexivity. }
  destruct (keys_aligned_as_loop self') as [H1 H2].
  destruct (keys_aligned_as_loop self) as [H3 _].
  rewrite H1, H2, H3, Hkeys, aligned_loop_snoc. cbn [fst snd].
  change (normalized_to_original_keys_dict self')
    with (normalized_to_original_keys_dict self).
  pose proof (aligned_loop_other (normalized_keys self) []
                (normalized_to_original_keys_dict self) n Hn) as Hd.
  rewrite Hnew in Hd.
  unfold defaultdict_getitem. rewrite Hd. cbn [fst snd].
  split; [reflexivity|]. split; [exact Hnew|]. apply get_set_eq.
Qed.

Lemma default_created_key_has_no_originals_witness :
  let nd : NormalizingDictionary loc heap :=
    init [("a", 7)] normalize_string_default (Some set_new) in
  (keys_aligned_with_values nd).1 = [{[ "a" ]}]
  /\ (keys_aligned_with_values (getitem nd "b" []).1.2).1 = [{[ "a" ]}; ∅].
Proof.
  intros nd.
  assert (Hbefore : (keys_aligned_with_values nd).1 = [{[ "a" ]}])
    by (vm_compute; reflexivity).
  split; [exact Hbefore|].
  pose proof (proj1 (default_created_key_has_no_originals nd "b" [] set_new
                       eq_refl eq_refl eq_refl)) as Hafter.
  rewrite Hbefore in Hafter. exact Hafter.
Defined.

(** ** [invert] on arbitrary containers *)

(** X26. [invert] raises [TypeError] on every container that stores at
    least one scalar or non-empty collection: the key set that [items] pairs
    with the value cannot be added to a set. *)
Theorem invert_fails_on_any_element {H : Type}
    (self : NormalizingDictionary pyval H) (hp : heap)
    (Hex : Exists (fun v => values_of v <> []) (values self)) :
  (invert self hp).1.1 = Raise (TypeError "unhashable type: 'set'").
Proof. apply invert_raises, Hex. Qed.

Lemma invert_fails_on_any_element_witness :
  let nd := init (H := unit) [("a", VList []); ("b", VTuple ["x"; "y"])]
              normalize_string_default None in
  Exists (fun v => values_of v <> []) (values nd)
  /\ (invert nd []).1.1 = Raise (TypeError "unhashable type: 'set'").
Proof.
  intros nd.
  assert (Hex : Exists (fun v => values_of v <> []) (values nd)).
  { apply Exists_cons. right. apply Exists_cons. left. discriminate. }
  split; [exact Hex|].
  exact (invert_fails_on_any_element nd [] Hex).
Defined.


